(** * Span-stack manager of opentelemetry-trace (src/trace.ts)

    A shallow embedding of the [Trace] class and of the [SpanWrapper]
    objects it hands out, with the properties of the specification proved
    about it.

    The tracing SDK is an external collaborator.  It is modelled by what the
    manager can observe of it: the handle of each span it creates (a new
    object per [tracer.startSpan] call) and the ordered log of the calls made
    into it.  JavaScript arrays are objects: [spanStack] holds a reference
    into a store of arrays, so that in-place mutation ([push]), reallocation
    ([slice], spread) and aliasing are explicit. *)

From Stdlib Require Import ZArith.
From stdpp Require Import base option list strings gmap fin_maps.

Local Open Scope string_scope.
Local Open Scope list_scope.
Local Open Scope nat_scope.

(** ** Data carried through to the SDK *)

(** A span handle: the identity of a span object owned by the SDK, compared
    with [!==] in the source. *)
Definition Span := nat.

(** A reference to a JavaScript array of span handles. *)
Definition ArrayRef := nat.

(** [AttributeValue] of the API; the manager itself only writes strings. *)
Inductive AttributeValue :=
| AString (s : string)
| ANumber (n : Z)
| ABoolean (b : bool).

Abbreviation Attributes := (gmap string AttributeValue).

(** Opaque payloads, passed through unchanged. *)
Definition Context := nat.
Definition TimeInput := Z.
Record Status := { code : Z; message : option string }.

Record SpanOptions := {
  parent : option Span;
  attributes : option Attributes
}.

(** One call into the SDK.  [TracerStartSpan] records the handle returned. *)
Inductive SdkCall :=
| TracerStartSpan (name : string) (options : SpanOptions)
    (context : option Context) (returned : Span)
| SpanSetAttribute (span : Span) (key : string) (value : AttributeValue)
| SpanSetAttributes (span : Span) (attrs : Attributes)
| SpanAddEvent (span : Span) (name : string)
    (attributesOrStartTime : option (Attributes + TimeInput))
    (startTime : option TimeInput)
| SpanSetStatus (span : Span) (status : Status)
| SpanUpdateName (span : Span) (name : string)
| SpanEnd (span : Span) (endTime : option TimeInput).

(** ** The world: array store and SDK *)

Record World := {
  arrays : gmap ArrayRef (list Span);
  sdk_next : Span;
  sdk_calls : list SdkCall
}.

(** State monad over the world. *)
Definition M (A : Type) : Type := World → A * World.

#[global] Instance M_ret : MRet M := λ A (a : A) w, (a, w).
#[global] Instance M_bind : MBind M :=
  λ A B (f : A → M B) (m : M A) w, let (a, w') := m w in f a w'.

Definition exec {A} (m : M A) (w : World) : World := snd (m w).

(** *** Arrays *)

Definition contents (a : ArrayRef) (w : World) : list Span :=
  default [] (arrays w !! a).

Definition array_read (a : ArrayRef) : M (list Span) :=
  λ w, (contents a w, w).

(** An array literal / a freshly allocated array. *)
Definition array_new (l : list Span) : M ArrayRef :=
  λ w, let a := fresh (dom (arrays w)) in
       (a, {| arrays := <[a:=l]> (arrays w);
              sdk_next := sdk_next w; sdk_calls := sdk_calls w |}).

(** Any in-place mutation of the array behind [a] ([push], [pop], [splice],
    index or [length] assignment, ...). *)
Definition array_mutate (a : ArrayRef) (f : list Span → list Span) : M unit :=
  λ w, (tt, {| arrays := <[a:=f (contents a w)]> (arrays w);
               sdk_next := sdk_next w; sdk_calls := sdk_calls w |}).

Definition array_push (a : ArrayRef) (x : Span) : M unit :=
  array_mutate a (λ l, l ++ [x]).

(** [a.slice(0, stop)]: a new array. *)
Definition array_slice0 (a : ArrayRef) (stop : nat) : M ArrayRef :=
  l ← array_read a; array_new (take stop l).

(** [[...a]]: a new array with the same elements. *)
Definition array_spread (a : ArrayRef) : M ArrayRef :=
  l ← array_read a; array_new l.

(** *** SDK *)

Definition sdk_call (c : SdkCall) : M unit :=
  λ w, (tt, {| arrays := arrays w; sdk_next := sdk_next w;
               sdk_calls := sdk_calls w ++ [c] |}).

(** Modelled from the spec: [tracer.startSpan] of @opentelemetry/api, which
    is outside the repository.  It creates a span and returns its handle, "an
    opaque SDK-level identity usable for equality comparison": a new one per
    call. *)
Definition tracer_startSpan (name : string) (options : SpanOptions)
    (context : option Context) : M Span :=
  λ w, let span := sdk_next w in
       (span, {| arrays := arrays w; sdk_next := S span;
                 sdk_calls := sdk_calls w
                              ++ [TracerStartSpan name options context span] |}).

Definition span_setAttribute (span : Span) (key : string)
    (value : AttributeValue) : M unit :=
  sdk_call (SpanSetAttribute span key value).
Definition span_setAttributes (span : Span) (attrs : Attributes) : M unit :=
  sdk_call (SpanSetAttributes span attrs).
Definition span_addEvent (span : Span) (name : string)
    (attributesOrStartTime : option (Attributes + TimeInput))
    (startTime : option TimeInput) : M unit :=
  sdk_call (SpanAddEvent span name attributesOrStartTime startTime).
Definition span_setStatus (span : Span) (status : Status) : M unit :=
  sdk_call (SpanSetStatus span status).
Definition span_updateName (span : Span) (name : string) : M unit :=
  sdk_call (SpanUpdateName span name).
Definition span_end (span : Span) (endTime : option TimeInput) : M unit :=
  sdk_call (SpanEnd span endTime).

(** [for (const x of l) body(x)] *)
Fixpoint for_of {A} (l : list A) (body : A → M unit) : M unit :=
  match l with
  | [] => mret tt
  | x :: l' => body x ;; for_of l' body
  end.

(** ** class Trace *)

(** The [tracer] field is the SDK of the world. *)
Record Trace := {
  spanStack : ArrayRef;
  commonAttributes : gmap string string
}.

(** The object returned by [startSpan]; it closes over [span]. *)
Record SpanWrapper := { wrapped : Span }.

(** [constructor(tracer)] *)
Definition Trace_new : M Trace :=
  a ← array_new [];
  mret {| spanStack := a; commonAttributes := ∅ |}.

Definition getSpanStack (this : Trace) : M ArrayRef :=
  array_spread (spanStack this).

(** [obj[key] = value] on a plain object ([{}]) whose own properties are
    [obj], with a string [value].  An own property is overwritten.  A key
    that is not an own property is created, except ["__proto__"]: that
    assignment goes to the setter inherited from [Object.prototype], which
    ignores a string, and no property is created. *)
Definition assign (obj : gmap string string) (key value : string)
    : gmap string string :=
  if decide (key = "__proto__") then
    match obj !! key with
    | Some _ => <[key:=value]> obj
    | None => obj
    end
  else <[key:=value]> obj.

Definition addCommonAttribute (this : Trace) (key value : string) : M Trace :=
  stack ← array_read (spanStack this);
  for_of stack (λ span, span_setAttribute span key (AString value)) ;;
  mret {| spanStack := spanStack this;
          commonAttributes := assign (commonAttributes this) key value |}.

Definition startSpan (this : Trace) (name : string)
    (attributes : option Attributes) (context : option Context)
    : M (SpanWrapper * Trace) :=
  stack ← array_read (spanStack this);
  let parent :=
    if 0 <? length stack then stack !! (length stack - 1) else None in
  let spanOptions := {| parent := parent; attributes := attributes |} in
  span ← tracer_startSpan name spanOptions context;
  span_setAttributes span (AString <$> commonAttributes this) ;;
  array_push (spanStack this) span ;;
  mret ({| wrapped := span |}, this).

Definition endSpan (this : Trace) (span : Span) (endTime : option TimeInput)
    : M Trace :=
  stack ← array_read (spanStack this);
  this' ←
    (if length stack =? 0 then
       span_setAttribute span "span_status" (AString "error_empty_stack") ;;
       mret this
     else if bool_decide (stack !! (length stack - 1) ≠ Some span) then
       span_setAttribute span "span_status" (AString "error_not_top") ;;
       mret this
     else
       a ← array_slice0 (spanStack this) (length stack - 1);
       mret {| spanStack := a; commonAttributes := commonAttributes this |});
  span_end span endTime ;;
  mret this'.

(** ** The object literal [spanRef] (interface [SpanWrapper])

    Each method forwards to the wrapped span.  [end] goes through the
    manager's [endSpan] and has no return value; the manager is threaded
    through it.  The two read-only methods, [context] and [isRecording],
    return what the SDK answers and are left out. *)

Definition SpanWrapper_setAttribute (spanRef : SpanWrapper)
    (key value : string) : M SpanWrapper :=
  span_setAttribute (wrapped spanRef) key (AString value) ;;
  mret spanRef.

Definition SpanWrapper_setAttributes (spanRef : SpanWrapper)
    (_attributes : Attributes) : M SpanWrapper :=
  span_setAttributes (wrapped spanRef) _attributes ;;
  mret spanRef.

Definition SpanWrapper_addEvent (spanRef : SpanWrapper) (_name : string)
    (attributesOrStartTime : option (Attributes + TimeInput))
    (startTime : option TimeInput) : M SpanWrapper :=
  span_addEvent (wrapped spanRef) _name attributesOrStartTime startTime ;;
  mret spanRef.

Definition SpanWrapper_setStatus (spanRef : SpanWrapper) (status : Status)
    : M SpanWrapper :=
  span_setStatus (wrapped spanRef) status ;;
  mret spanRef.

Definition SpanWrapper_updateName (spanRef : SpanWrapper) (_name : string)
    : M SpanWrapper :=
  span_updateName (wrapped spanRef) _name ;;
  mret spanRef.

Definition SpanWrapper_end (this : Trace) (spanRef : SpanWrapper)
    (endTime : option TimeInput) : M Trace :=
  endSpan this (wrapped spanRef) endTime.

(** The mutating methods of a wrapper, as a caller invokes them. *)
Inductive Method :=
| setAttribute (key value : string)
| setAttributes (_attributes : Attributes)
| addEvent (_name : string)
    (attributesOrStartTime : option (Attributes + TimeInput))
    (startTime : option TimeInput)
| setStatus (status : Status)
| updateName (_name : string)
| end_ (endTime : option TimeInput).

(** What a method call evaluates to: [undefined] for a method without
    [return], else the object returned. *)
Inductive Returned :=
| Undefined
| Object (spanRef : SpanWrapper).

Definition invoke (this : Trace) (spanRef : SpanWrapper) (m : Method)
    : M (Returned * Trace) :=
  match m with
  | setAttribute key value =>
      r ← SpanWrapper_setAttribute spanRef key value; mret (Object r, this)
  | setAttributes _attributes =>
      r ← SpanWrapper_setAttributes spanRef _attributes; mret (Object r, this)
  | addEvent _name attributesOrStartTime startTime =>
      r ← SpanWrapper_addEvent spanRef _name attributesOrStartTime startTime;
      mret (Object r, this)
  | setStatus status =>
      r ← SpanWrapper_setStatus spanRef status; mret (Object r, this)
  | updateName _name =>
      r ← SpanWrapper_updateName spanRef _name; mret (Object r, this)
  | end_ endTime =>
      this' ← SpanWrapper_end this spanRef endTime; mret (Undefined, this')
  end.

(** ** Runs of caller operations on one manager *)

Inductive Op :=
| CallStartSpan (name : string) (attributes : option Attributes)
    (context : option Context)
| CallAddCommonAttribute (key value : string)
| CallGetSpanStack
| CallMethod (spanRef : SpanWrapper) (m : Method).

Definition step (this : Trace) (op : Op) : M Trace :=
  match op with
  | CallStartSpan name attributes context =>
      r ← startSpan this name attributes context; mret (snd r)
  | CallAddCommonAttribute key value => addCommonAttribute this key value
  | CallGetSpanStack => getSpanStack this ;; mret this
  | CallMethod spanRef m => r ← invoke this spanRef m; mret (snd r)
  end.

Fixpoint run (this : Trace) (ops : list Op) : M Trace :=
  match ops with
  | [] => mret this
  | op :: ops' => this' ← step this op; run this' ops'
  end.

(** The manager's stack, read through its reference. *)
Definition stack (this : Trace) (w : World) : list Span :=
  contents (spanStack this) w.

(** Consecutive [startSpan] calls; the wrappers in call order. *)
Fixpoint startSpans (this : Trace)
    (reqs : list (string * option Attributes * option Context))
    : M (list SpanWrapper * Trace) :=
  match reqs with
  | [] => mret ([], this)
  | (name, attributes, context) :: reqs' =>
      r ← startSpan this name attributes context;
      rs ← startSpans (snd r) reqs';
      mret (fst r :: fst rs, snd rs)
  end.

(** Consecutive [end] calls on the given wrappers, in list order. *)
Fixpoint endSpans (this : Trace) (spanRefs : list SpanWrapper) : M Trace :=
  match spanRefs with
  | [] => mret this
  | spanRef :: spanRefs' =>
      this' ← SpanWrapper_end this spanRef None; endSpans this' spanRefs'
  end.

(** ** Reading the SDK log *)

(** The span a call is made on ([tracer.startSpan]: the span it creates). *)
Definition target (c : SdkCall) : Span :=
  match c with
  | TracerStartSpan _ _ _ span | SpanSetAttribute span _ _
  | SpanSetAttributes span _ | SpanAddEvent span _ _ _
  | SpanSetStatus span _ | SpanUpdateName span _ | SpanEnd span _ => span
  end.

Definition calls_on (span : Span) (log : list SdkCall) : list SdkCall :=
  filter (λ c, target c = span) log.

(** The parents given to the tracer, one per created span, in order. *)
Definition created (log : list SdkCall) : list (Span * option Span) :=
  omap (λ c, match c with
             | TracerStartSpan _ options _ span => Some (span, parent options)
             | _ => None
             end) log.

(** Modelled from the spec: the attribute store of an SDK span, which is
    outside the repository.  Attribute writes apply in call order and the
    last write to a key wins (spec 4.1); creation installs the initial
    attributes of the options. *)
Definition write (span : Span) (acc : Attributes) (c : SdkCall) : Attributes :=
  match c with
  | TracerStartSpan _ options _ s =>
      if decide (s = span) then default ∅ (attributes options) else acc
  | SpanSetAttribute s key value =>
      if decide (s = span) then <[key:=value]> acc else acc
  | SpanSetAttributes s attrs =>
      if decide (s = span) then attrs ∪ acc else acc
  | _ => acc
  end.

Definition carried (log : list SdkCall) (span : Span) : Attributes :=
  foldl (write span) ∅ log.

(** An empty world: no array allocated, no span created, nothing logged. *)
Definition world0 : World :=
  {| arrays := ∅; sdk_next := 0; sdk_calls := [] |}.

(** [w] after the SDK calls [cs], in order. *)
Definition logged (w : World) (cs : list SdkCall) : World :=
  {| arrays := arrays w; sdk_next := sdk_next w;
     sdk_calls := sdk_calls w ++ cs |}.

(** The two diagnostic attribute writes of [endSpan]. *)
Definition error_empty_stack (span : Span) : SdkCall :=
  SpanSetAttribute span "span_status" (AString "error_empty_stack").
Definition error_not_top (span : Span) : SdkCall :=
  SpanSetAttribute span "span_status" (AString "error_not_top").

(** The manager's array is allocated in the store. *)
Definition allocated (this : Trace) (w : World) : Prop :=
  spanStack this ∈ dom (arrays w).

(** The handles on the stack are distinct spans the SDK has created. *)
Definition tracked (this : Trace) (w : World) : Prop :=
  NoDup (stack this w) ∧ Forall (λ span, span < sdk_next w) (stack this w).

(** Which operations start a span, and which end one. *)
Definition is_start (op : Op) : bool :=
  match op with CallStartSpan _ _ _ => true | _ => false end.
Definition is_end (op : Op) : bool :=
  match op with CallMethod _ (end_ _) => true | _ => false end.

(** ** Concrete states *)

(** A new manager in the empty world. *)
Definition fresh_manager : Trace * World := Trace_new world0.

(** The manager after [startSpan("api_call")] and
    [startSpan("connect_db")]: spans 0 and 1 are open. *)
Definition two_open : Trace * World :=
  let r := startSpans (fst fresh_manager)
             [("api_call", None, None); ("connect_db", None, None)]
             (snd fresh_manager) in
  (snd (fst r), snd r).

(** The same after [addCommonAttribute("user_id", "42")]. *)
Definition two_open_tagged : Trace * World :=
  addCommonAttribute (fst two_open) "user_id" "42" (snd two_open).

(** ** Further readings of a run *)

(** The SDK [end] calls of a log, and the [end] calls a caller makes. *)
Definition ended (log : list SdkCall) : list (Span * option TimeInput) :=
  omap (λ c, match c with
             | SpanEnd span endTime => Some (span, endTime)
             | _ => None
             end) log.

Definition end_calls (ops : list Op) : list (Span * option TimeInput) :=
  omap (λ op, match op with
              | CallMethod spanRef (end_ endTime) =>
                  Some (wrapped spanRef, endTime)
              | _ => None
              end) ops.

(** What the tracer was asked to create, and what a caller asks to start. *)
Definition requested (log : list SdkCall)
    : list (string * option Attributes * option Context) :=
  omap (λ c, match c with
             | TracerStartSpan name options context _ =>
                 Some (name, attributes options, context)
             | _ => None
             end) log.

Definition start_calls (ops : list Op)
    : list (string * option Attributes * option Context) :=
  omap (λ op, match op with
              | CallStartSpan name attributes context =>
                  Some (name, attributes, context)
              | _ => None
              end) ops.

(** The [addCommonAttribute] calls of a caller, applied in order. *)
Definition registered (common : gmap string string) (ops : list Op)
    : gmap string string :=
  foldl (λ m op, match op with
                 | CallAddCommonAttribute key value => assign m key value
                 | _ => m
                 end) common ops.

(** The parent each entry of a stack should have been created with: none
    for the bottom one, the entry below for the others. *)
Definition chain (l : list Span) : list (Span * option Span) :=
  zip l (None :: (Some <$> l)).

(** Writes of the attribute [span_status] to a single span. *)
Definition is_status_write (c : SdkCall) : bool :=
  match c with
  | SpanSetAttribute _ key _ => bool_decide (key = "span_status")
  | _ => false
  end.

Definition status_writes (log : list SdkCall) : list SdkCall :=
  filter (λ c, is_status_write c) log.

(** Operations by which the caller itself writes [span_status]. *)
Definition writes_status (op : Op) : bool :=
  match op with
  | CallAddCommonAttribute key _ => bool_decide (key = "span_status")
  | CallMethod _ (setAttribute key _) => bool_decide (key = "span_status")
  | _ => false
  end.

(** The spans an operation makes SDK calls on: the span it creates, the
    spans of the stack, or the span of the wrapper it is called on. *)
Definition touched (this : Trace) (w : World) (op : Op) : list Span :=
  match op with
  | CallStartSpan _ _ _ => [sdk_next w]
  | CallAddCommonAttribute _ _ => stack this w
  | CallGetSpanStack => []
  | CallMethod spanRef _ => [wrapped spanRef]
  end.

(** ** A caller that ends spans in reverse order of start

    The caller keeps the wrappers of its open spans, latest first, and ends
    the latest one; between starts and ends it makes other calls. *)
Inductive Action :=
| Start (name : string) (attributes : option Attributes)
    (context : option Context)
| EndLatest (endTime : option TimeInput)
| Other (op : Op).

Fixpoint disciplined (this : Trace) (open : list SpanWrapper)
    (acts : list Action) : M (Trace * list SpanWrapper) :=
  match acts with
  | [] => mret (this, open)
  | Start name attributes context :: acts' =>
      r ← startSpan this name attributes context;
      disciplined (snd r) (fst r :: open) acts'
  | EndLatest endTime :: acts' =>
      match open with
      | [] => disciplined this [] acts'
      | spanRef :: open' =>
          this' ← SpanWrapper_end this spanRef endTime;
          disciplined this' open' acts'
      end
  | Other op :: acts' =>
      this' ← step this op;
      disciplined this' open acts'
  end.

(** An [Other] call that starts no span, ends none and does not write
    [span_status]. *)
Definition quiet (act : Action) : bool :=
  match act with
  | Other op => negb (is_start op) && negb (is_end op) && negb (writes_status op)
  | _ => true
  end.

(** ** The usage example of the README

    [apiCall] with the enum values written out: [SpanNameKey.API_CALL] is
    ["api_call"], [SpanNameKey.CONNECT_DB] is ["connect_db"] and
    [SpanAttributeKey.USER_ID] is ["user_id"]; [userId] is what the example
    obtains from the database. *)
Definition apiCall (userId : string) : M unit :=
  trace ← Trace_new;
  apiSpan ← startSpan trace "api_call" None None;
  connectDbSpan ← startSpan (snd apiSpan) "connect_db" None None;
  trace ← addCommonAttribute (snd connectDbSpan) "user_id" userId;
  trace ← SpanWrapper_end trace (fst connectDbSpan) None;
  trace ← SpanWrapper_end trace (fst apiSpan) None;
  mret tt.

(** ** Equations of the operations *)

Ltac msimpl :=
  unfold mbind, mret, M_bind, M_ret in *; cbn -[Nat.ltb Nat.eqb] in *.

Lemma last_index (l : list Span) :
  (if 0 <? length l then l !! (length l - 1) else None) = last l.
Proof.
  rewrite last_lookup. destruct l as [|x l]; [done|].
  cbn [length]. replace (0 <? S (length l)) with true by done.
  by replace (S (length l) - 1) with (pred (S (length l))) by lia.
Qed.

Lemma logged_nil w : logged w [] = w.
Proof. unfold logged. rewrite app_nil_r. by destruct w. Qed.

Lemma stack_logged this w cs : stack this (logged w cs) = stack this w.
Proof. done. Qed.

Lemma for_of_calls (f : Span → SdkCall) (l : list Span) w :
  for_of l (λ span, sdk_call (f span)) w = (tt, logged w (f <$> l)).
Proof.
  revert w. induction l as [|x l IH]; intros w; cbn [for_of].
  - by rewrite logged_nil.
  - unfold mbind, M_bind. unfold sdk_call at 1. rewrite IH.
    unfold logged. cbn. by rewrite <- app_assoc.
Qed.

Lemma startSpan_eq this name attrs ctx w :
  startSpan this name attrs ctx w =
  (({| wrapped := sdk_next w |}, this),
   {| arrays := <[spanStack this := stack this w ++ [sdk_next w]]> (arrays w);
      sdk_next := S (sdk_next w);
      sdk_calls := sdk_calls w ++
        [TracerStartSpan name
           {| parent := last (stack this w); attributes := attrs |}
           ctx (sdk_next w);
         SpanSetAttributes (sdk_next w) (AString <$> commonAttributes this)] |}).
Proof.
  unfold startSpan, stack. msimpl. rewrite last_index.
  unfold contents. cbn. by rewrite <- app_assoc.
Qed.

Lemma startSpan_stack this name attrs ctx w :
  stack (snd (fst (startSpan this name attrs ctx w)))
        (snd (startSpan this name attrs ctx w))
  = stack this w ++ [sdk_next w].
Proof.
  rewrite startSpan_eq. unfold stack at 1, contents. cbn.
  by rewrite lookup_insert_eq.
Qed.

Lemma assign_created (obj : gmap string string) key value :
  key ≠ "__proto__" → assign obj key value = <[key:=value]> obj.
Proof. intros Hk. unfold assign. by rewrite decide_False. Qed.

Lemma assign_overwritten (obj : gmap string string) key old value :
  obj !! key = Some old → assign obj key value = <[key:=value]> obj.
Proof. intros Hold. unfold assign. rewrite Hold. by case_decide. Qed.

Lemma assign_other (obj : gmap string string) key value k :
  k ≠ key → assign obj key value !! k = obj !! k.
Proof.
  intros Hk. unfold assign.
  case_decide; [destruct (obj !! key)|]; by rewrite ?lookup_insert_ne.
Qed.

Lemma assign_dom (obj : gmap string string) key value :
  dom obj ⊆ dom (assign obj key value).
Proof.
  unfold assign.
  case_decide; [destruct (obj !! key)|]; rewrite ?dom_insert_L; set_solver.
Qed.

Lemma assign_proto (obj : gmap string string) key value :
  obj !! "__proto__" = None → assign obj key value !! "__proto__" = None.
Proof.
  intros Hp. destruct (decide (key = "__proto__")) as [->|Hk].
  - unfold assign. by rewrite decide_True, Hp.
  - by rewrite assign_other.
Qed.

Lemma addCommonAttribute_eq this key value w :
  addCommonAttribute this key value w =
  ({| spanStack := spanStack this;
      commonAttributes := assign (commonAttributes this) key value |},
   logged w ((λ span, SpanSetAttribute span key (AString value))
             <$> stack this w)).
Proof.
  unfold addCommonAttribute, span_setAttribute. msimpl.
  by rewrite (for_of_calls (λ span, SpanSetAttribute span key (AString value))).
Qed.

Lemma endSpan_empty this span endTime w :
  stack this w = [] →
  endSpan this span endTime w =
  (this, logged w [error_empty_stack span; SpanEnd span endTime]).
Proof.
  unfold stack, endSpan. intros E. msimpl. rewrite E. cbn.
  unfold logged. cbn. by rewrite <- app_assoc.
Qed.

Lemma endSpan_not_top this span endTime w :
  stack this w ≠ [] → last (stack this w) ≠ Some span →
  endSpan this span endTime w =
  (this, logged w [error_not_top span; SpanEnd span endTime]).
Proof.
  unfold stack, endSpan. intros Hne Hl. msimpl.
  destruct (contents (spanStack this) w) as [|x l] eqn:E; [done|].
  replace (length (x :: l) =? 0) with false by done.
  rewrite last_lookup in Hl.
  replace (length (x :: l) - 1) with (pred (length (x :: l))) by (cbn; lia).
  rewrite bool_decide_eq_true_2 by done. cbn.
  unfold logged. cbn. by rewrite <- app_assoc.
Qed.

Lemma endSpan_top this span endTime w l :
  stack this w = l ++ [span] →
  endSpan this span endTime w =
  ({| spanStack := fresh (dom (arrays w));
      commonAttributes := commonAttributes this |},
   {| arrays := <[fresh (dom (arrays w)) := l]> (arrays w);
      sdk_next := sdk_next w;
      sdk_calls := sdk_calls w ++ [SpanEnd span endTime] |}).
Proof.
  unfold stack, endSpan. intros E. msimpl. rewrite E.
  rewrite length_app. cbn [length].
  replace (length l + 1 =? 0) with false by (symmetry; apply Nat.eqb_neq; lia).
  replace (length l + 1 - 1) with (length l) by lia.
  rewrite lookup_app_r by lia. rewrite Nat.sub_diag. cbn.
  rewrite bool_decide_eq_false_2 by (intros H; by apply H). cbn.
  unfold array_slice0, array_read, array_new. msimpl.
  by rewrite E, take_app_length.
Qed.

Lemma endSpan_top_stack this span endTime w l :
  stack this w = l ++ [span] →
  stack (fst (endSpan this span endTime w)) (snd (endSpan this span endTime w))
  = l.
Proof.
  intros E. rewrite (endSpan_top _ _ _ _ l E). unfold stack, contents. cbn.
  by rewrite lookup_insert_eq.
Qed.

(** The three cases of [endSpan], by the shape of the stack. *)
Lemma endSpan_cases this span endTime w :
  let r := endSpan this span endTime w in
  (stack this w = [] ∧
   r = (this, logged w [error_empty_stack span; SpanEnd span endTime]))
  ∨ (stack this w ≠ [] ∧ last (stack this w) ≠ Some span ∧
     r = (this, logged w [error_not_top span; SpanEnd span endTime]))
  ∨ (∃ l, stack this w = l ++ [span] ∧ stack (fst r) (snd r) = l ∧
          sdk_next (snd r) = sdk_next w ∧
          commonAttributes (fst r) = commonAttributes this ∧
          sdk_calls (snd r) = sdk_calls w ++ [SpanEnd span endTime]).
Proof.
  cbn zeta. destruct (stack this w) as [|x l0] eqn:E using rev_ind.
  - left. split; [done|]. by apply endSpan_empty.
  - clear IHl0. destruct (decide (x = span)) as [->|Hne].
    + right; right. exists l0. split; [done|].
      split; [by apply endSpan_top_stack|].
      by rewrite (endSpan_top _ _ _ _ l0 E).
    + right; left. split; [by destruct l0|]. 
      assert (last (l0 ++ [x]) ≠ Some span)
        by (rewrite last_snoc; congruence).
      split; [done|]. apply endSpan_not_top; rewrite E; [by destruct l0|done].
Qed.

Lemma created_app log log' : created (log ++ log') = created log ++ created log'.
Proof. apply omap_app. Qed.

Lemma Trace_new_stack w : stack (fst (Trace_new w)) (snd (Trace_new w)) = [].
Proof.
  unfold stack, contents, Trace_new, array_new, mbind, mret, M_bind, M_ret.
  cbn [fst snd arrays spanStack]. by rewrite lookup_insert_eq.
Qed.

Lemma startSpans_spec reqs this w :
  let r := startSpans this reqs w in
  let spans := wrapped <$> fst (fst r) in
  snd (fst r) = this
  ∧ spans = seq (sdk_next w) (length reqs)
  ∧ sdk_next (snd r) = sdk_next w + length reqs
  ∧ stack this (snd r) = stack this w ++ spans
  ∧ created (sdk_calls (snd r))
    = created (sdk_calls w)
      ++ zip spans (last (stack this w) :: (Some <$> spans)).
Proof.
  cbn zeta. revert w.
  induction reqs as [|[[name attrs] ctx] reqs IH]; intros w.
  - cbn. rewrite !app_nil_r. repeat split; lia.
  - cbn [startSpans]. unfold mbind, M_bind.
    pose proof (startSpan_stack this name attrs ctx w) as Hst.
    rewrite startSpan_eq in *. cbn [fst snd] in *.
    match goal with |- context [startSpans this reqs ?w1] =>
      specialize (IH w1); set (w' := w1) in * end.
    destruct (startSpans this reqs w') as [[refs this'] w''].
    cbn [fst snd mret M_ret] in *.
    destruct IH as (-> & Hs & Hn & Hk & Hc). subst w'. cbn [sdk_next] in *.
    rewrite fmap_cons. cbn [wrapped length seq].
    rewrite Hst, last_snoc in *. rewrite Hk, Hc, Hn, Hs.
    repeat split; [lia | by rewrite <- app_assoc |].
    cbn [sdk_calls]. rewrite created_app. cbn. by rewrite <- app_assoc.
Qed.

(** ** Out-of-order end *)

(** C2 (out-of-order end).  When the stack is non-empty ([below ++ [top]])
    and [end] is called on a span that is not [top], the span is tagged
    [span_status = error_not_top], the SDK [end] is still called on it, and
    the manager and the array store are exactly as before: nothing popped,
    nothing reordered.  [top] can then be ended normally, which leaves
    [below]; with open spans [A; B], ending [A] leaves [A; B] and ending [B]
    afterwards leaves [A]. *)
Theorem endSpan_out_of_order
    this span top below (endTime endTime' : option TimeInput) w :
  stack this w = below ++ [top] →
  span ≠ top →
  let r := endSpan this span endTime w in
  let r' := endSpan (fst r) top endTime' (snd r) in
  sdk_calls (snd r)
  = sdk_calls w ++ [error_not_top span; SpanEnd span endTime]
  ∧ fst r = this
  ∧ arrays (snd r) = arrays w
  ∧ stack (fst r) (snd r) = below ++ [top]
  ∧ stack (fst r') (snd r') = below
  ∧ sdk_calls (snd r') = sdk_calls (snd r) ++ [SpanEnd top endTime'].
Proof.
  intros E Hne. cbn zeta.
  assert (endSpan this span endTime w
          = (this, logged w [error_not_top span; SpanEnd span endTime])) as ->.
  { apply endSpan_not_top; rewrite E; [by destruct below|].
    rewrite last_snoc. congruence. }
  cbn [fst snd]. rewrite stack_logged.
  repeat split; try done.
  - by apply endSpan_top_stack.
  - by rewrite (endSpan_top _ _ _ _ below).
Qed.

(** ** One step of a run *)

Lemma getSpanStack_eq this w :
  getSpanStack this w =
  (fresh (dom (arrays w)),
   {| arrays := <[fresh (dom (arrays w)) := stack this w]> (arrays w);
      sdk_next := sdk_next w; sdk_calls := sdk_calls w |}).
Proof. done. Qed.

Lemma getSpanStack_stack this w :
  stack this (snd (getSpanStack this w)) = stack this w.
Proof.
  rewrite getSpanStack_eq. unfold stack at 1, contents at 1. cbn [snd arrays].
  destruct (decide (fresh (dom (arrays w)) = spanStack this)) as [->|Hne].
  - by rewrite lookup_insert_eq.
  - by rewrite lookup_insert_ne.
Qed.

Lemma invoke_eq this spanRef m w :
  invoke this spanRef m w =
  match m with
  | setAttribute key value =>
      ((Object spanRef, this),
       logged w [SpanSetAttribute (wrapped spanRef) key (AString value)])
  | setAttributes attrs =>
      ((Object spanRef, this),
       logged w [SpanSetAttributes (wrapped spanRef) attrs])
  | addEvent name attributesOrStartTime startTime =>
      ((Object spanRef, this),
       logged w [SpanAddEvent (wrapped spanRef) name attributesOrStartTime
                   startTime])
  | setStatus status =>
      ((Object spanRef, this),
       logged w [SpanSetStatus (wrapped spanRef) status])
  | updateName name =>
      ((Object spanRef, this),
       logged w [SpanUpdateName (wrapped spanRef) name])
  | end_ endTime =>
      ((Undefined, fst (endSpan this (wrapped spanRef) endTime w)),
       snd (endSpan this (wrapped spanRef) endTime w))
  end.
Proof.
  destruct m; try done.
  unfold invoke, SpanWrapper_end, mbind, mret, M_bind, M_ret.
  by destruct (endSpan this (wrapped spanRef) endTime w).
Qed.

Lemma step_shape this op w :
  let r := step this op w in
  (sdk_next (snd r) = sdk_next w ∧ stack (fst r) (snd r) = stack this w)
  ∨ (sdk_next (snd r) = S (sdk_next w)
     ∧ stack (fst r) (snd r) = stack this w ++ [sdk_next w])
  ∨ (sdk_next (snd r) = sdk_next w
     ∧ ∃ span, stack this w = stack (fst r) (snd r) ++ [span]).
Proof.
  cbn zeta. destruct op as [name attrs ctx|key value| |spanRef m].
  - right; left. unfold step, mbind, mret, M_bind, M_ret.
    pose proof (startSpan_stack this name attrs ctx w) as Hst.
    rewrite startSpan_eq in *. by split.
  - left. unfold step. by rewrite addCommonAttribute_eq.
  - left. pose proof (getSpanStack_stack this w) as Hst.
    unfold step, mbind, mret, M_bind, M_ret.
    rewrite getSpanStack_eq in *. by split.
  - unfold step, mbind, mret, M_bind, M_ret. rewrite invoke_eq.
    destruct m; try (left; by split). cbn [fst snd].
    destruct (endSpan_cases this (wrapped spanRef) endTime w)
      as [[_ ->]|[(_ & _ & ->)|(l & E & Hl & Hn & _)]].
    + left. by split.
    + left. by split.
    + right; right. split; [done|]. exists (wrapped spanRef). by rewrite Hl.
Qed.

Lemma step_commonAttributes this op w key :
  (∀ value, op ≠ CallAddCommonAttribute key value) →
  commonAttributes (fst (step this op w)) !! key
  = commonAttributes this !! key.
Proof.
  intros Hop. destruct op as [name attrs ctx|key' value| |spanRef m].
  - unfold step, mbind, mret, M_bind, M_ret. by rewrite startSpan_eq.
  - unfold step. rewrite addCommonAttribute_eq. cbn [fst commonAttributes].
    apply assign_other. intros ->. by apply (Hop value).
  - done.
  - unfold step, mbind, mret, M_bind, M_ret. rewrite invoke_eq.
    destruct m; try done. cbn [fst snd].
    destruct (endSpan_cases this (wrapped spanRef) endTime w)
      as [[_ ->]|[(_ & _ & ->)|(l & _ & _ & _ & -> & _)]]; done.
Qed.

Lemma run_cons this op ops w :
  run this (op :: ops) w
  = run (fst (step this op w)) ops (snd (step this op w)).
Proof.
  cbn [run]. unfold mbind, M_bind. by destruct (step this op w).
Qed.

Lemma run_commonAttributes ops this w key :
  Forall (λ op, ∀ value, op ≠ CallAddCommonAttribute key value) ops →
  commonAttributes (fst (run this ops w)) !! key
  = commonAttributes this !! key.
Proof.
  intros H. revert this w. induction H as [|op ops Hop _ IH]; intros this w.
  - done.
  - rewrite run_cons, IH. by apply step_commonAttributes.
Qed.

(** *** Invariants of reachable states *)

Lemma tracked_new w : tracked (fst (Trace_new w)) (snd (Trace_new w)).
Proof.
  unfold tracked. rewrite Trace_new_stack. split; constructor.
Qed.

Lemma step_tracked this op w :
  tracked this w → tracked (fst (step this op w)) (snd (step this op w)).
Proof.
  unfold tracked. intros [Hnd Hlt].
  destruct (step_shape this op w)
    as [[-> ->]|[[-> ->]|[-> [span E]]]]; [done| |].
  - split.
    + apply NoDup_app. split; [done|]. split; [|apply NoDup_singleton].
      intros x Hx ->%list_elem_of_singleton.
      rewrite Forall_forall in Hlt. specialize (Hlt _ Hx). lia.
    + apply Forall_app. split; [|by repeat constructor].
      eapply Forall_impl; [exact Hlt|]. cbn. lia.
  - rewrite E in Hnd, Hlt. apply NoDup_app in Hnd. apply Forall_app in Hlt.
    by destruct Hnd, Hlt.
Qed.

Lemma run_tracked ops this w :
  tracked this w → tracked (fst (run this ops w)) (snd (run this ops w)).
Proof.
  revert this w. induction ops as [|op ops IH]; intros this w H; [done|].
  rewrite run_cons. by apply IH, step_tracked.
Qed.

(** A span the SDK has created and that is not on the stack stays off it. *)
Lemma step_absent span this op w :
  span < sdk_next w → span ∉ stack this w →
  span < sdk_next (snd (step this op w))
  ∧ span ∉ stack (fst (step this op w)) (snd (step this op w)).
Proof.
  intros Hlt Hni.
  destruct (step_shape this op w)
    as [[-> ->]|[[-> ->]|[-> [x E]]]]; [done| |].
  - split; [lia|]. rewrite elem_of_app, list_elem_of_singleton.
    intros [?| ->]; [done|lia].
  - split; [done|]. intros Hin. apply Hni. rewrite E, elem_of_app. by left.
Qed.

Lemma run_absent span ops this w :
  span < sdk_next w → span ∉ stack this w →
  span ∉ stack (fst (run this ops w)) (snd (run this ops w)).
Proof.
  revert this w. induction ops as [|op ops IH]; intros this w Hlt Hni; [done|].
  rewrite run_cons. destruct (step_absent span this op w Hlt Hni).
  by apply IH.
Qed.

(** [endSpan] on a span that is not on the stack changes neither the
    manager nor the array store. *)
Lemma endSpan_absent this span endTime w :
  span ∉ stack this w →
  fst (endSpan this span endTime w) = this
  ∧ arrays (snd (endSpan this span endTime w)) = arrays w.
Proof.
  intros Hni.
  destruct (endSpan_cases this span endTime w)
    as [[_ ->]|[(_ & _ & ->)|(l & E & _)]]; [done|done|].
  exfalso. apply Hni. rewrite E, elem_of_app, list_elem_of_singleton. by right.
Qed.

(** ** Parenting *)

Lemma created_broadcast key value (l : list Span) :
  created ((λ span, SpanSetAttribute span key value) <$> l) = [].
Proof. unfold created. by induction l. Qed.

(** A step that is not an [end]: a [startSpan] creates a span under the
    current top and pushes it; anything else leaves the stack alone and
    creates nothing. *)
Lemma step_no_end this op w :
  is_end op = false →
  let r := step this op w in
  if is_start op then
    stack (fst r) (snd r) = stack this w ++ [sdk_next w]
    ∧ sdk_next (snd r) = S (sdk_next w)
    ∧ created (sdk_calls (snd r))
      = created (sdk_calls w) ++ [(sdk_next w, last (stack this w))]
  else
    stack (fst r) (snd r) = stack this w
    ∧ sdk_next (snd r) = sdk_next w
    ∧ created (sdk_calls (snd r)) = created (sdk_calls w).
Proof.
  intros Hend. cbn zeta.
  destruct op as [name attrs ctx|key value| |spanRef m]; cbn [is_start].
  - unfold step, mbind, mret, M_bind, M_ret.
    pose proof (startSpan_stack this name attrs ctx w) as Hst.
    rewrite startSpan_eq in *. cbn [fst snd sdk_next sdk_calls] in *.
    by rewrite created_app.
  - unfold step. rewrite addCommonAttribute_eq. cbn [fst snd logged sdk_calls].
    rewrite created_app, created_broadcast, app_nil_r. by repeat split.
  - pose proof (getSpanStack_stack this w) as Hst.
    unfold step, mbind, mret, M_bind, M_ret.
    rewrite getSpanStack_eq in *. by repeat split.
  - unfold step, mbind, mret, M_bind, M_ret. rewrite invoke_eq.
    destruct m; try discriminate Hend;
      cbn [fst snd logged sdk_calls]; rewrite created_app, app_nil_r;
      by repeat split.
Qed.

Lemma run_no_end ops : ∀ this w,
  Forall (λ op, is_end op = false) ops →
  let c := run this ops w in
  let spans := seq (sdk_next w) (length (filter (λ op, is_start op) ops)) in
  stack (fst c) (snd c) = stack this w ++ spans
  ∧ created (sdk_calls (snd c))
    = created (sdk_calls w)
      ++ zip spans (last (stack this w) :: (Some <$> spans)).
Proof.
  induction ops as [|op ops IH]; intros this w Hops; cbn zeta.
  - cbn. by rewrite !app_nil_r.
  - apply Forall_cons in Hops as [Hop Hops]. rewrite run_cons.
    pose proof (step_no_end this op w Hop) as Hstep. cbn zeta in Hstep.
    destruct (IH (fst (step this op w)) (snd (step this op w)) Hops)
      as [-> ->].
    destruct (is_start op) eqn:Hs.
    + rewrite filter_cons_True by (rewrite Hs; exact I).
      destruct Hstep as (-> & -> & ->). cbn [length seq].
      rewrite last_snoc, <- !app_assoc. by split.
    + rewrite filter_cons_False by (rewrite Hs; intros []).
      by destruct Hstep as (-> & -> & ->).
Qed.

(** C1 (parenting).  Each [startSpan] hands the tracer the last element of
    [spanStack] as parent, none when the stack is empty.  Hence in any run
    of operations without an [end] (consecutive [startSpan] calls, or with
    other operations in between), the spans are created in call order, the
    Nth with the (N-1)th as parent and the first under the top of the stack
    the run began with; on a new manager the first has no parent.  All of
    them are then on the stack in call order. *)
Theorem startSpan_parenting :
  (∀ this name attrs ctx w,
     let r := startSpan this name attrs ctx w in
     sdk_calls (snd r)
     = sdk_calls w
       ++ [TracerStartSpan name
             {| parent := last (stack this w); attributes := attrs |}
             ctx (wrapped (fst (fst r)));
           SpanSetAttributes (wrapped (fst (fst r)))
             (AString <$> commonAttributes this)])
  ∧ (∀ this ops w,
       Forall (λ op, is_end op = false) ops →
       let c := run this ops w in
       let spans := seq (sdk_next w) (length (filter (λ op, is_start op) ops)) in
       created (sdk_calls (snd c))
       = created (sdk_calls w)
         ++ zip spans (last (stack this w) :: (Some <$> spans))
       ∧ stack (fst c) (snd c) = stack this w ++ spans)
  ∧ (∀ reqs w,
       let new := Trace_new w in
       let r := startSpans (fst new) reqs (snd new) in
       let spans := wrapped <$> fst (fst r) in
       length spans = length reqs
       ∧ created (sdk_calls (snd r))
         = created (sdk_calls w) ++ zip spans (None :: (Some <$> spans))
       ∧ stack (snd (fst r)) (snd r) = spans).
Proof.
  split; [|split].
  - intros. subst r. by rewrite startSpan_eq.
  - intros this ops w Hops. cbn zeta.
    by destruct (run_no_end ops this w Hops) as [-> ->].
  - intros reqs w. cbn zeta.
    destruct (startSpans_spec reqs (fst (Trace_new w)) (snd (Trace_new w)))
      as (E & Hs & _ & Hk & Hc).
    rewrite E, Hk, Hc, Trace_new_stack. repeat split.
    by rewrite Hs, length_seq.
Qed.

(** On a manager run from its construction, a span whose [end] has popped
    it is never on the stack again. *)
Lemma popped_absent w0 ops1 span endTime ops2 :
  let new := Trace_new w0 in
  let c1 := run (fst new) ops1 (snd new) in
  let c2 := endSpan (fst c1) span endTime (snd c1) in
  let c3 := run (fst c2) ops2 (snd c2) in
  stack (fst c2) (snd c2) ≠ stack (fst c1) (snd c1) →
  span ∉ stack (fst c3) (snd c3).
Proof.
  cbn zeta. intros Hmut.
  set (c1 := run (fst (Trace_new w0)) ops1 (snd (Trace_new w0))) in *.
  assert (tracked (fst c1) (snd c1)) as [Hnd Hlt]
    by apply run_tracked, tracked_new.
  destruct (endSpan_cases (fst c1) span endTime (snd c1))
    as [[_ E]|[(_ & _ & E)|(l & E & Hl & Hn & _)]];
    [by rewrite E in Hmut|by rewrite E in Hmut|].
  rewrite E in Hnd, Hlt.
  apply NoDup_app in Hnd as (_ & Hni & _).
  apply Forall_app in Hlt as [_ Hlt]. apply Forall_inv in Hlt.
  apply run_absent.
  - rewrite Hn. exact Hlt.
  - rewrite Hl. intros Hin. apply (Hni _ Hin). by apply list_elem_of_singleton.
Qed.

Lemma step_allocated this op w :
  allocated this w → allocated (fst (step this op w)) (snd (step this op w)).
Proof.
  unfold allocated. intros Ha.
  destruct op as [name attrs ctx|key value| |spanRef m];
    unfold step, mbind, mret, M_bind, M_ret.
  - rewrite startSpan_eq. cbn [fst snd arrays]. rewrite dom_insert_L.
    set_solver.
  - by rewrite addCommonAttribute_eq.
  - rewrite getSpanStack_eq. cbn [fst snd arrays]. rewrite dom_insert_L.
    set_solver.
  - rewrite invoke_eq. destruct m; try done. cbn [fst snd].
    destruct (stack this w) as [|x l] eqn:E using rev_ind.
    + by rewrite endSpan_empty.
    + clear IHl. destruct (decide (x = wrapped spanRef)) as [->|Hne].
      * rewrite (endSpan_top _ _ _ _ _ E). cbn [fst snd arrays spanStack].
        rewrite dom_insert_L. set_solver.
      * rewrite endSpan_not_top; [done|rewrite E; by destruct l|].
        rewrite E, last_snoc. congruence.
Qed.

(** The array of a manager run from its construction is in the store. *)
Lemma run_allocated ops this w :
  allocated this w → allocated (fst (run this ops w)) (snd (run this ops w)).
Proof.
  revert this w. induction ops as [|op ops IH]; intros this w H; [done|].
  rewrite run_cons. by apply IH, step_allocated.
Qed.

(** ** Misuse of [end] *)

Lemma last_snoc2 {A} (l : list A) (x y : A) : last (l ++ [x; y]) = Some y.
Proof. change [x; y] with ([x] ++ [y]). by rewrite app_assoc, last_snoc. Qed.

(** C3 (misuse is non-fatal, the end always completes).  [endSpan] is a
    total function: it returns on every state.  Whatever the case, the SDK
    [end] is the last call it makes, on the span and with the end time
    given ([None] when omitted).  On an empty stack it first tags the span
    [span_status = error_empty_stack] and changes nothing else; an [end]
    on a span that is not the top never changes the manager or the array
    store.  And in any run of a manager, once an [end] on a span has changed
    the stack (the first valid call), no later [end] on that span changes
    the manager or the array store: it tags the span and ends it again. *)
Theorem endSpan_misuse_nonfatal :
  (∀ this span endTime w,
     let r := endSpan this span endTime w in
     sdk_calls (snd r)
     = sdk_calls w
       ++ (if decide (stack this w = []) then [error_empty_stack span]
           else if decide (last (stack this w) = Some span) then []
           else [error_not_top span])
       ++ [SpanEnd span endTime]
     ∧ last (sdk_calls (snd r)) = Some (SpanEnd span endTime)
     ∧ (stack this w = [] →
        fst r = this ∧ arrays (snd r) = arrays w ∧ stack (fst r) (snd r) = [])
     ∧ (last (stack this w) ≠ Some span →
        fst r = this ∧ arrays (snd r) = arrays w))
  ∧ (∀ w0 ops1 span endTime1 ops2 endTime2,
       let new := Trace_new w0 in
       let c1 := run (fst new) ops1 (snd new) in
       let c2 := endSpan (fst c1) span endTime1 (snd c1) in
       let c3 := run (fst c2) ops2 (snd c2) in
       let c4 := endSpan (fst c3) span endTime2 (snd c3) in
       stack (fst c2) (snd c2) ≠ stack (fst c1) (snd c1) →
       fst c4 = fst c3
       ∧ arrays (snd c4) = arrays (snd c3)
       ∧ stack (fst c4) (snd c4) = stack (fst c3) (snd c3)
       ∧ ∃ tag, (tag = error_empty_stack span ∨ tag = error_not_top span)
                ∧ sdk_calls (snd c4)
                  = sdk_calls (snd c3) ++ [tag; SpanEnd span endTime2]).
Proof.
  split.
  - intros this span endTime w. cbn zeta.
    destruct (endSpan_cases this span endTime w)
      as [[E ->]|[(Hne & Hl & ->)|(l & E & Hl & _ & _ & Hc)]].
    + rewrite decide_True by done. cbn [fst snd logged sdk_calls].
      split; [done|]. split; [by rewrite last_snoc2|]. by split.
    + rewrite decide_False, decide_False by done.
      cbn [fst snd logged sdk_calls].
      split; [done|]. split; [by rewrite last_snoc2|]. by split.
    + assert (stack this w ≠ []) by (rewrite E; by destruct l).
      rewrite decide_False by done.
      rewrite decide_True by (by rewrite E, last_snoc).
      rewrite Hc. split; [done|]. split; [by rewrite last_snoc|].
      split; [done|]. rewrite E, last_snoc. intros Hl'. by destruct Hl'.
  - intros w0 ops1 span endTime1 ops2 endTime2. cbn zeta. intros Hmut.
    pose proof (popped_absent w0 ops1 span endTime1 ops2 Hmut) as Habs.
    cbn zeta in Habs.
    set (c2 := endSpan _ span endTime1 _) in *.
    set (c3 := run (fst c2) ops2 (snd c2)) in *.
    destruct (endSpan_absent (fst c3) span endTime2 (snd c3) Habs) as [Ht Ha].
    split; [done|]. split; [done|].
    destruct (endSpan_cases (fst c3) span endTime2 (snd c3))
      as [[_ E3]|[(_ & _ & E3)|(l3 & E3 & _)]].
    + rewrite E3. split; [done|]. exists (error_empty_stack span).
      split; [by left|done].
    + rewrite E3. split; [done|]. exists (error_not_top span).
      split; [by right|done].
    + exfalso. apply Habs. rewrite E3, elem_of_app, list_elem_of_singleton.
      by right.
Qed.

(** ** Common attributes *)

Lemma calls_on_app span log log' :
  calls_on span (log ++ log') = calls_on span log ++ calls_on span log'.
Proof. apply filter_app. Qed.

Lemma carried_app log log' span :
  carried (log ++ log') span = foldl (write span) (carried log span) log'.
Proof. apply foldl_app. Qed.

Lemma calls_on_broadcast span key value (l : list Span) :
  span ∉ l →
  calls_on span ((λ s, SpanSetAttribute s key value) <$> l) = [].
Proof.
  unfold calls_on. induction l as [|x l IH]; [done|].
  intros [Hx Hl]%not_elem_of_cons. rewrite fmap_cons, filter_cons_False; auto.
Qed.

Lemma write_broadcast_absent span key value (l : list Span) acc :
  span ∉ l →
  foldl (write span) acc ((λ s, SpanSetAttribute s key value) <$> l) = acc.
Proof.
  revert acc. induction l as [|x l IH]; intros acc; [done|].
  intros [Hx Hl]%not_elem_of_cons. cbn. rewrite decide_False by done. auto.
Qed.

Lemma write_broadcast_keeps span key value (l : list Span) acc :
  acc !! key = Some value →
  foldl (write span) acc ((λ s, SpanSetAttribute s key value) <$> l) !! key
  = Some value.
Proof.
  revert acc. induction l as [|x l IH]; intros acc Hacc; [done|].
  cbn. apply IH. case_decide; [apply lookup_insert_eq|done].
Qed.

Lemma write_broadcast_present span key value (l : list Span) acc :
  span ∈ l →
  foldl (write span) acc ((λ s, SpanSetAttribute s key value) <$> l) !! key
  = Some value.
Proof.
  revert acc. induction l as [|x l IH]; intros acc Hin.
  - by apply elem_of_nil in Hin.
  - cbn. destruct (decide (x = span)) as [_|Hne].
    + apply write_broadcast_keeps, lookup_insert_eq.
    + apply IH. apply elem_of_cons in Hin as [->|]; done.
Qed.

Lemma carried_startSpan log name options ctx span attrs :
  carried (log ++ [TracerStartSpan name options ctx span;
                   SpanSetAttributes span attrs]) span
  = attrs ∪ default ∅ (attributes options).
Proof. rewrite carried_app. cbn. by rewrite !decide_True. Qed.

(** A span popped earlier in the run has no call made on it by a later
    [addCommonAttribute] and carries what it carried. *)
Lemma popped_untouched w0 ops1 span endTime ops2 key value :
  let new := Trace_new w0 in
  let c1 := run (fst new) ops1 (snd new) in
  let c2 := endSpan (fst c1) span endTime (snd c1) in
  let c3 := run (fst c2) ops2 (snd c2) in
  let r := addCommonAttribute (fst c3) key value (snd c3) in
  stack (fst c2) (snd c2) ≠ stack (fst c1) (snd c1) →
  calls_on span (sdk_calls (snd r)) = calls_on span (sdk_calls (snd c3))
  ∧ carried (sdk_calls (snd r)) span = carried (sdk_calls (snd c3)) span.
Proof.
  cbn zeta. intros Hmut.
  pose proof (popped_absent w0 ops1 span endTime ops2 Hmut) as Habs.
  cbn zeta in Habs. rewrite addCommonAttribute_eq.
  cbn [fst snd logged sdk_calls]. split.
  - by rewrite calls_on_app, calls_on_broadcast, app_nil_r.
  - rewrite carried_app. by apply write_broadcast_absent.
Qed.

(** C4 (common attribute retroactivity), as the code has it.
    [addCommonAttribute key value] calls [setAttribute key value] on every
    span of [spanStack], in stack order, and makes no other SDK call; a
    span that is not on the stack has no call made on it, and such is every
    span that an earlier [end] has popped.  For a key other than
    ["__proto__"] the value is stored, and after any further operations
    that do not register [key] again, [startSpan] passes [key = value] to
    the new span in the [setAttributes] call that follows its creation.
    ([carried]: the attributes under last-write-wins.) *)
Theorem addCommonAttribute_retroactive :
  (∀ this key value w,
     let r := addCommonAttribute this key value w in
     sdk_calls (snd r)
     = sdk_calls w
       ++ ((λ span, SpanSetAttribute span key (AString value))
           <$> stack this w)
     ∧ (∀ span, span ∈ stack this w →
          SpanSetAttribute span key (AString value)
            ∈ drop (length (sdk_calls w)) (sdk_calls (snd r)))
     ∧ (∀ span, span ∉ stack this w →
          calls_on span (sdk_calls (snd r)) = calls_on span (sdk_calls w)
          ∧ carried (sdk_calls (snd r)) span = carried (sdk_calls w) span)
     ∧ (key ≠ "__proto__" →
        commonAttributes (fst r) !! key = Some value
        ∧ ∀ span, span ∈ stack this w →
            carried (sdk_calls (snd r)) span !! key = Some (AString value)))
  ∧ (∀ w0 ops1 span endTime ops2 key value,
       let new := Trace_new w0 in
       let c1 := run (fst new) ops1 (snd new) in
       let c2 := endSpan (fst c1) span endTime (snd c1) in
       let c3 := run (fst c2) ops2 (snd c2) in
       let r := addCommonAttribute (fst c3) key value (snd c3) in
       stack (fst c2) (snd c2) ≠ stack (fst c1) (snd c1) →
       calls_on span (sdk_calls (snd r)) = calls_on span (sdk_calls (snd c3))
       ∧ carried (sdk_calls (snd r)) span = carried (sdk_calls (snd c3)) span)
  ∧ (∀ this key value w ops name attrs ctx,
       key ≠ "__proto__" →
       Forall (λ op, ∀ value', op ≠ CallAddCommonAttribute key value') ops →
       let r := addCommonAttribute this key value w in
       let c := run (fst r) ops (snd r) in
       let s := startSpan (fst c) name attrs ctx (snd c) in
       let new := wrapped (fst (fst s)) in
       (∃ common,
          sdk_calls (snd s)
          = sdk_calls (snd c)
            ++ [TracerStartSpan name
                  {| parent := last (stack (fst c) (snd c));
                     attributes := attrs |}
                  ctx new;
                SpanSetAttributes new common]
          ∧ common !! key = Some (AString value))
       ∧ carried (sdk_calls (snd s)) new !! key = Some (AString value)).
Proof.
  split; [|split].
  - intros this key value w. cbn zeta. rewrite addCommonAttribute_eq.
    cbn [fst snd logged sdk_calls commonAttributes].
    split; [done|]. split; [|split].
    + intros span Hin. rewrite drop_app_length.
      apply list_elem_of_fmap. by exists span.
    + intros span Hni. split.
      * by rewrite calls_on_app, calls_on_broadcast, app_nil_r.
      * rewrite carried_app. by apply write_broadcast_absent.
    + intros Hkey. rewrite assign_created by done.
      split; [apply lookup_insert_eq|].
      intros span Hin. rewrite carried_app. by apply write_broadcast_present.
  - apply popped_untouched.
  - intros this key value w ops name attrs ctx Hkey Hops. cbn zeta.
    pose proof (run_commonAttributes ops
                  (fst (addCommonAttribute this key value w))
                  (snd (addCommonAttribute this key value w)) key Hops)
      as Hkeep.
    rewrite addCommonAttribute_eq in *. cbn [fst snd] in *.
    rewrite (assign_created _ key value Hkey) in *.
    cbn [commonAttributes] in Hkeep. rewrite lookup_insert_eq in Hkeep.
    match goal with |- context [run ?t ops ?w'] =>
      set (c := run t ops w') in * end.
    assert ((AString <$> commonAttributes (fst c)) !! key
            = Some (AString value)) as Hcommon
      by (by rewrite lookup_fmap, Hkeep).
    rewrite startSpan_eq. cbn [fst snd wrapped sdk_calls]. split.
    + by exists (AString <$> commonAttributes (fst c)).
    + rewrite carried_startSpan. by apply lookup_union_Some_l.
Qed.

(** C5 (common versus initial attributes at [startSpan]).  The initial
    attributes go to the tracer with the creation of the span; the common
    attributes are written to the new span by the [setAttributes] call that
    follows, before [startSpan] returns.  With the last write winning, the
    span carries the common attributes over the initial ones: for a key set
    by both, the common value; for a key set only initially, the initial
    value. *)
Theorem startSpan_common_after_initial
    this name (initial : Attributes) ctx key value0 value w :
  initial !! key = Some value0 →
  commonAttributes this !! key = Some value →
  let r := startSpan this name (Some initial) ctx w in
  let new := wrapped (fst (fst r)) in
  sdk_calls (snd r)
  = sdk_calls w
    ++ [TracerStartSpan name
          {| parent := last (stack this w); attributes := Some initial |}
          ctx new;
        SpanSetAttributes new (AString <$> commonAttributes this)]
  ∧ carried (sdk_calls (snd r)) new
    = (AString <$> commonAttributes this) ∪ initial
  ∧ carried (sdk_calls (snd r)) new !! key = Some (AString value)
  ∧ (∀ k, commonAttributes this !! k = None →
          carried (sdk_calls (snd r)) new !! k = initial !! k).
Proof.
  intros _ Hc. cbn zeta. rewrite startSpan_eq.
  cbn [fst snd wrapped sdk_calls]. rewrite carried_startSpan. cbn [attributes].
  split; [done|]. split; [done|]. split.
  - apply lookup_union_Some_l. by rewrite lookup_fmap, Hc.
  - intros k Hk. apply lookup_union_r. by rewrite lookup_fmap, Hk.
Qed.


(** ** LIFO pop *)

Lemma endSpans_pop (refs : list SpanWrapper) : ∀ this w below,
  stack this w = below ++ (wrapped <$> refs) →
  let e := endSpans this (reverse refs) w in
  stack (fst e) (snd e) = below
  ∧ sdk_calls (snd e)
    = sdk_calls w ++ ((λ spanRef, SpanEnd (wrapped spanRef) None)
                      <$> reverse refs).
Proof.
  induction refs as [|spanRef refs IH] using rev_ind; intros this w below E.
  - cbn in *. by rewrite app_nil_r in *.
  - cbn zeta. rewrite reverse_snoc. cbn [endSpans].
    unfold mbind, M_bind, SpanWrapper_end.
    rewrite fmap_app, app_assoc in E. cbn [fmap list_fmap] in E.
    pose proof (endSpan_top_stack _ _ None _ _ E) as Hst.
    rewrite (endSpan_top _ _ None _ _ E) in *. cbn [fst snd] in *.
    destruct (IH _ _ below Hst) as [-> ->].
    split; [done|]. cbn [sdk_calls]. by rewrite fmap_cons, <- app_assoc.
Qed.

(** C6 (LIFO pop).  An [end] on the span at the top of the stack removes
    exactly that entry: the stack is one shorter, what is left is the part
    below, and the SDK [end] is the only call made (no error tag).  After
    any sequence of [startSpan] calls on a new manager, ending the spans
    from the last one down to the one at position [k], in reverse order of
    start, leaves the first [k] started spans on the stack, in order: each
    [end] uncovers the span started immediately before. *)
Theorem endSpan_lifo :
  (∀ this span below endTime w,
     stack this w = below ++ [span] →
     let r := endSpan this span endTime w in
     stack (fst r) (snd r) = below
     ∧ S (length (stack (fst r) (snd r))) = length (stack this w)
     ∧ stack this w = stack (fst r) (snd r) ++ [span]
     ∧ last (stack (fst r) (snd r)) = last below
     ∧ sdk_calls (snd r) = sdk_calls w ++ [SpanEnd span endTime])
  ∧ (∀ reqs k w,
       let new := Trace_new w in
       let r := startSpans (fst new) reqs (snd new) in
       let spanRefs := fst (fst r) in
       let e := endSpans (snd (fst r)) (reverse (drop k spanRefs)) (snd r) in
       stack (fst e) (snd e) = take k (wrapped <$> spanRefs)
       ∧ last (stack (fst e) (snd e))
         = (if decide (k = 0) then None
            else (wrapped <$> spanRefs) !! (Nat.pred (Nat.min k (length reqs))))
       ∧ sdk_calls (snd e)
         = sdk_calls (snd r)
           ++ ((λ spanRef, SpanEnd (wrapped spanRef) None)
               <$> reverse (drop k spanRefs))).
Proof.
  split.
  - intros this span below endTime w E. cbn zeta.
    rewrite (endSpan_top_stack _ _ _ _ _ E), E, (endSpan_top _ _ _ _ _ E).
    rewrite length_app. cbn. repeat split; lia.
  - intros reqs k w. cbn zeta.
    destruct (startSpans_spec reqs (fst (Trace_new w)) (snd (Trace_new w)))
      as (Ethis & Hs & _ & Hk & _).
    rewrite Trace_new_stack in Hk. cbn [app] in Hk.
    set (r := startSpans (fst (Trace_new w)) reqs (snd (Trace_new w))) in *.
    assert (stack (snd (fst r)) (snd r)
            = take k (wrapped <$> fst (fst r))
              ++ (wrapped <$> drop k (fst (fst r)))) as E.
    { by rewrite Ethis, Hk, fmap_drop, take_drop. }
    destruct (endSpans_pop _ _ _ _ E) as [Hst Hlog].
    split; [done|]. split; [|done].
    rewrite Hst, last_lookup, length_take, Hs, length_seq.
    case_decide as Hk0; [subst k; done|].
    apply lookup_take_lt. lia.
Qed.

(** ** Snapshot isolation *)

Lemma allocated_new w : allocated (fst (Trace_new w)) (snd (Trace_new w)).
Proof.
  unfold allocated, Trace_new, array_new, mbind, mret, M_bind, M_ret.
  cbn [fst snd arrays spanStack]. rewrite dom_insert_L. set_solver.
Qed.

(** An array other than the manager's is neither written nor adopted by
    the manager's operations. *)
Lemma step_frame this op w (a : ArrayRef) :
  a ∈ dom (arrays w) → a ≠ spanStack this →
  let r := step this op w in
  a ∈ dom (arrays (snd r))
  ∧ a ≠ spanStack (fst r)
  ∧ arrays (snd r) !! a = arrays w !! a.
Proof.
  intros Ha Hne. cbn zeta.
  pose proof (is_fresh (dom (arrays w))) as Hfresh.
  assert (fresh (dom (arrays w)) ≠ a) as Hfa
    by (intros Heq; by rewrite Heq in Hfresh).
  destruct op as [name attrs ctx|key value| |spanRef m];
    unfold step, mbind, mret, M_bind, M_ret.
  - rewrite startSpan_eq. cbn [fst snd arrays]. rewrite dom_insert_L.
    split; [set_solver|]. split; [done|]. by apply lookup_insert_ne.
  - by rewrite addCommonAttribute_eq.
  - rewrite getSpanStack_eq. cbn [fst snd arrays]. rewrite dom_insert_L.
    split; [set_solver|]. split; [done|]. by apply lookup_insert_ne.
  - rewrite invoke_eq. destruct m; try done. cbn [fst snd].
    destruct (stack this w) as [|x l] eqn:E using rev_ind.
    + by rewrite endSpan_empty.
    + clear IHl. destruct (decide (x = wrapped spanRef)) as [->|Hx].
      * rewrite (endSpan_top _ _ _ _ _ E). cbn [fst snd arrays spanStack].
        rewrite dom_insert_L.
        split; [set_solver|]. split; [done|]. by apply lookup_insert_ne.
      * rewrite endSpan_not_top; [done|rewrite E; by destruct l|].
        rewrite E, last_snoc. congruence.
Qed.

Lemma run_frame ops : ∀ this w (a : ArrayRef),
  a ∈ dom (arrays w) → a ≠ spanStack this →
  let c := run this ops w in
  a ≠ spanStack (fst c) ∧ arrays (snd c) !! a = arrays w !! a.
Proof.
  induction ops as [|op ops IH]; intros this w a Ha Hne; cbn zeta; [done|].
  rewrite run_cons.
  destruct (step_frame this op w a Ha Hne) as (Ha' & Hne' & <-).
  by apply IH.
Qed.

(** C8 (snapshot isolation of [getSpanStack]).  On a manager whose array is
    in the store, [getSpanStack] returns a reference to a new array, different
    from the manager's, that holds the same handles in the same order.  The
    call changes no array that existed before and makes no SDK call, so the
    manager's stack is unchanged.  After any in-place mutation [f] of the
    returned array, at once or after further operations [ops] of the
    manager, the manager's stack is what it was before the mutation; and
    those operations do not change the returned array. *)
Theorem getSpanStack_snapshot this w (f : list Span → list Span) ops :
  allocated this w →
  let r := getSpanStack this w in
  let w' := exec (array_mutate (fst r) f) (snd r) in
  let c := run this ops (snd r) in
  contents (fst r) (snd r) = stack this w
  ∧ (fst r ≠ spanStack this)
  ∧ (fst r ∉ dom (arrays w))
  ∧ (∀ a, a ∈ dom (arrays w) → arrays (snd r) !! a = arrays w !! a)
  ∧ sdk_calls (snd r) = sdk_calls w
  ∧ sdk_next (snd r) = sdk_next w
  ∧ stack this (snd r) = stack this w
  ∧ contents (fst r) w' = f (stack this w)
  ∧ stack this w' = stack this w
  ∧ contents (fst r) (snd c) = stack this w
  ∧ stack (fst c) (exec (array_mutate (fst r) f) (snd c))
    = stack (fst c) (snd c).
Proof.
  unfold allocated. intros Halloc. cbn zeta.
  pose proof (is_fresh (dom (arrays w))) as Hfresh.
  assert (fresh (dom (arrays w)) ≠ spanStack this) as Hne
    by (intros Heq; by rewrite Heq in Hfresh).
  assert (let r := getSpanStack this w in
          let c := run this ops (snd r) in
          fst r ≠ spanStack (fst c)
          ∧ arrays (snd c) !! fst r = Some (stack this w)) as [Hc1 Hc2].
  { cbn zeta. rewrite getSpanStack_eq. cbn [fst snd].
    match goal with |- context [run this ops ?w1] =>
      destruct (run_frame ops this w1 (fresh (dom (arrays w)))) as [H1 H2]
    end.
    - cbn [arrays]. rewrite dom_insert_L. set_solver.
    - done.
    - split; [done|]. rewrite H2. cbn [arrays]. apply lookup_insert_eq. }
  cbn zeta in Hc1, Hc2. rewrite getSpanStack_eq in *.
  cbn [fst snd] in *. unfold exec, array_mutate. cbn [fst snd].
  unfold stack, contents in *. cbn [arrays sdk_calls sdk_next].
  rewrite !lookup_insert_eq, Hc2. rewrite !lookup_insert_ne by done.
  repeat split; try done.
  intros a Ha. apply lookup_insert_ne. intros Heq. by rewrite Heq in Hfresh.
Qed.

(** ** Return values of the wrapper's methods *)

(** C9 (controller chaining), as the code has it.  [setAttribute],
    [setAttributes], [addEvent], [setStatus] and [updateName] make their one
    SDK call on the wrapped span and return the wrapper they were called
    on, leaving the manager as it is; [end] returns nothing. *)
Theorem SpanWrapper_chaining this spanRef m w :
  let r := invoke this spanRef m w in
  match m with
  | end_ endTime =>
      fst (fst r) = Undefined
      ∧ (snd (fst r), snd r) = endSpan this (wrapped spanRef) endTime w
  | _ =>
      fst (fst r) = Object spanRef
      ∧ snd (fst r) = this
      ∧ arrays (snd r) = arrays w
      ∧ ∃ c, sdk_calls (snd r) = sdk_calls w ++ [c]
             ∧ target c = wrapped spanRef
  end.
Proof.
  cbn zeta. rewrite invoke_eq. destruct m; cbn [fst snd logged sdk_calls arrays];
    try (repeat split; eexists; split; [reflexivity|done]).
  split; [done|]. by destruct (endSpan this (wrapped spanRef) endTime w).
Qed.

(** ** Shape of the stack across one operation *)

(** C10 (stack-step invariant).  [startSpan] appends the new handle at the
    end of the stack and keeps what was there; [endSpan] leaves the stack as
    it is or removes its last entry, which is then the span ended;
    [addCommonAttribute] and [getSpanStack] leave it as it is.  So across
    any single operation the stack is the previous one, the previous one
    with one entry appended, or the previous one without its last entry. *)
Theorem stack_step_invariant :
  (∀ this name attrs ctx w,
     let r := startSpan this name attrs ctx w in
     stack (snd (fst r)) (snd r) = stack this w ++ [wrapped (fst (fst r))])
  ∧ (∀ this span endTime w,
       let r := endSpan this span endTime w in
       stack (fst r) (snd r) = stack this w
       ∨ stack this w = stack (fst r) (snd r) ++ [span])
  ∧ (∀ this key value w,
       let r := addCommonAttribute this key value w in
       spanStack (fst r) = spanStack this
       ∧ arrays (snd r) = arrays w
       ∧ stack (fst r) (snd r) = stack this w)
  ∧ (∀ this w, stack this (snd (getSpanStack this w)) = stack this w)
  ∧ (∀ this op w,
       let r := step this op w in
       stack (fst r) (snd r) = stack this w
       ∨ (∃ span, stack (fst r) (snd r) = stack this w ++ [span])
       ∨ (∃ span, stack this w = stack (fst r) (snd r) ++ [span])).
Proof.
  split; [|split; [|split; [|split]]].
  - intros this name attrs ctx w. cbn zeta.
    rewrite startSpan_stack. by rewrite startSpan_eq.
  - intros this span endTime w. cbn zeta.
    destruct (endSpan_cases this span endTime w)
      as [[_ ->]|[(_ & _ & ->)|(l & E & -> & _)]]; [by left|by left|by right].
  - intros this key value w. cbn zeta. by rewrite addCommonAttribute_eq.
  - apply getSpanStack_stack.
  - intros this op w. cbn zeta.
    destruct (step_shape this op w) as [[_ ->]|[[_ ->]|[_ [span E]]]].
    + by left.
    + right; left. by eexists.
    + right; right. by eexists.
Qed.

(** ** The properties at concrete states *)

Lemma startSpan_parenting_witness :
  let ops := [CallStartSpan "api_call" None None;
              CallAddCommonAttribute "user_id" "42";
              CallStartSpan "connect_db" None None] in
  Forall (λ op, is_end op = false) ops
  ∧ let c := run (fst fresh_manager) ops (snd fresh_manager) in
    let spans := seq 0 2 in
    created (sdk_calls (snd c)) = [] ++ zip spans (None :: (Some <$> spans))
    ∧ stack (fst c) (snd c) = [] ++ spans.
Proof.
  cbn zeta.
  assert (Forall (λ op, is_end op = false)
            [CallStartSpan "api_call" None None;
             CallAddCommonAttribute "user_id" "42";
             CallStartSpan "connect_db" None None]) as Hops
    by (repeat constructor).
  split; [exact Hops|].
  destruct startSpan_parenting as (_ & Hrun & _).
  exact (Hrun (fst fresh_manager) _ (snd fresh_manager) Hops).
Defined.

Lemma endSpan_out_of_order_witness :
  stack (fst two_open) (snd two_open) = [0] ++ [1]
  ∧ 0 ≠ 1
  ∧ let r := endSpan (fst two_open) 0 None (snd two_open) in
    let r' := endSpan (fst r) 1 None (snd r) in
    stack (fst r) (snd r) = [0; 1] ∧ stack (fst r') (snd r') = [0].
Proof.
  assert (stack (fst two_open) (snd two_open) = [0] ++ [1]) as H1
    by (vm_compute; reflexivity).
  assert (0 ≠ 1) as H2 by lia.
  split; [exact H1|]. split; [exact H2|].
  destruct (endSpan_out_of_order _ _ _ _ None None _ H1 H2)
    as (_ & _ & _ & Ha & Hb & _).
  split; [exact Ha|exact Hb].
Defined.

Lemma endSpan_misuse_nonfatal_witness :
  let c1 := run (fst fresh_manager) [CallStartSpan "api_call" None None]
              (snd fresh_manager) in
  let c2 := endSpan (fst c1) 0 None (snd c1) in
  let c4 := endSpan (fst c2) 0 None (snd c2) in
  stack (fst c2) (snd c2) ≠ stack (fst c1) (snd c1)
  ∧ fst c4 = fst c2
  ∧ stack (fst c4) (snd c4) = stack (fst c2) (snd c2).
Proof.
  cbn zeta.
  assert (let c1 := run (fst (Trace_new world0))
                      [CallStartSpan "api_call" None None]
                      (snd (Trace_new world0)) in
          let c2 := endSpan (fst c1) 0 None (snd c1) in
          stack (fst c2) (snd c2) ≠ stack (fst c1) (snd c1)) as Hmut
    by (vm_compute; discriminate).
  split; [exact Hmut|].
  destruct endSpan_misuse_nonfatal as [_ Htwice].
  destruct (Htwice world0 [CallStartSpan "api_call" None None] 0 None [] None
              Hmut) as (Ha & _ & Hb & _).
  split; [exact Ha|exact Hb].
Defined.

Lemma addCommonAttribute_retroactive_witness :
  "user_id" ≠ "__proto__"
  ∧ Forall (λ op, ∀ value', op ≠ CallAddCommonAttribute "user_id" value')
      [CallGetSpanStack]
  ∧ let r := addCommonAttribute (fst two_open) "user_id" "42" (snd two_open) in
    let c := run (fst r) [CallGetSpanStack] (snd r) in
    let s := startSpan (fst c) "cache_lookup" None None (snd c) in
    carried (sdk_calls (snd s)) (wrapped (fst (fst s))) !! "user_id"
    = Some (AString "42").
Proof.
  assert ("user_id" ≠ "__proto__") as Hkey by discriminate.
  assert (Forall (λ op, ∀ value', op ≠ CallAddCommonAttribute "user_id" value')
            [CallGetSpanStack]) as Hops
    by (constructor; [intros value'; discriminate|constructor]).
  split; [exact Hkey|]. split; [exact Hops|].
  destruct addCommonAttribute_retroactive as (_ & _ & Hlater).
  exact (proj2 (Hlater (fst two_open) "user_id" "42" (snd two_open)
                  [CallGetSpanStack] "cache_lookup" None None Hkey Hops)).
Defined.

(** Retroactivity does not outlive a second registration of the key: after
    [addCommonAttribute("user_id", "42")] and then
    [addCommonAttribute("user_id", "43")], the next span started receives
    [user_id = 43], not 42. *)
Lemma addCommonAttribute_then_registered_again :
  let r := addCommonAttribute (fst two_open) "user_id" "42" (snd two_open) in
  let c := addCommonAttribute (fst r) "user_id" "43" (snd r) in
  let s := startSpan (fst c) "cache_lookup" None None (snd c) in
  let new := wrapped (fst (fst s)) in
  match last (sdk_calls (snd s)) with
  | Some (SpanSetAttributes span common) =>
      span = new
      ∧ common !! "user_id" = Some (AString "43")
      ∧ common !! "user_id" ≠ Some (AString "42")
  | _ => False
  end
  ∧ carried (sdk_calls (snd s)) new !! "user_id" = Some (AString "43").
Proof.
  vm_compute. split; [split; [reflexivity|split; [reflexivity|discriminate]]|].
  reflexivity.
Qed.

Lemma startSpan_common_after_initial_witness :
  ({["user_id" := AString "7"]} : Attributes) !! "user_id" = Some (AString "7")
  ∧ commonAttributes (fst two_open_tagged) !! "user_id" = Some "42"
  ∧ let r := startSpan (fst two_open_tagged) "cache_lookup"
               (Some {["user_id" := AString "7"]}) None
               (snd two_open_tagged) in
    carried (sdk_calls (snd r)) (wrapped (fst (fst r))) !! "user_id"
    = Some (AString "42").
Proof.
  assert (({["user_id" := AString "7"]} : Attributes) !! "user_id"
          = Some (AString "7")) as H1 by (vm_compute; reflexivity).
  assert (commonAttributes (fst two_open_tagged) !! "user_id" = Some "42")
    as H2 by (vm_compute; reflexivity).
  split; [exact H1|]. split; [exact H2|].
  exact (proj1 (proj2 (proj2
    (startSpan_common_after_initial (fst two_open_tagged) "cache_lookup"
       {["user_id" := AString "7"]} None "user_id" (AString "7") "42"
       (snd two_open_tagged) H1 H2)))).
Defined.

Lemma endSpan_lifo_witness :
  stack (fst two_open) (snd two_open) = [0] ++ [1]
  ∧ let r := endSpan (fst two_open) 1 None (snd two_open) in
    stack (fst r) (snd r) = [0]
    ∧ S (length (stack (fst r) (snd r)))
      = length (stack (fst two_open) (snd two_open)).
Proof.
  assert (stack (fst two_open) (snd two_open) = [0] ++ [1]) as H1
    by (vm_compute; reflexivity).
  split; [exact H1|].
  destruct endSpan_lifo as [Hpop _].
  destruct (Hpop (fst two_open) 1 [0] None (snd two_open) H1)
    as (Ha & Hb & _).
  split; [exact Ha|exact Hb].
Defined.



Lemma getSpanStack_snapshot_witness :
  allocated (fst two_open) (snd two_open)
  ∧ let r := getSpanStack (fst two_open) (snd two_open) in
    let w' := exec (array_mutate (fst r) (λ _, [])) (snd r) in
    contents (fst r) (snd r) = stack (fst two_open) (snd two_open)
    ∧ stack (fst two_open) w' = stack (fst two_open) (snd two_open).
Proof.
  assert (allocated (fst two_open) (snd two_open)) as H1
    by (vm_compute; reflexivity).
  split; [exact H1|].
  destruct (getSpanStack_snapshot (fst two_open) (snd two_open) (λ _, []) []
              H1) as (Ha & _ & _ & _ & _ & _ & _ & _ & Hb & _).
  split; [exact Ha|exact Hb].
Defined.

(** [end] does not chain: on the wrapper of a span just started, [end()]
    evaluates to [undefined], not to the wrapper. *)
Lemma SpanWrapper_end_returns_undefined :
  let s := startSpan (fst fresh_manager) "api_call" None None
             (snd fresh_manager) in
  let spanRef := fst (fst s) in
  let r := invoke (snd (fst s)) spanRef (end_ None) (snd s) in
  fst (fst r) = Undefined ∧ fst (fst r) ≠ Object spanRef.
Proof. vm_compute. split; [reflexivity|discriminate]. Qed.

(** The scenario of section 8 of the specification, as the code runs it.
    When [api_call] (span 0) is ended, [cache_lookup] (span 2) is open on
    top of it: that [end] is out of order, span 0 is tagged and stays on the
    stack, and the [end] of span 2 that follows pops span 2 without a tag. *)
Example scenario_section_8 :
  let ops := [CallStartSpan "api_call" None None;
              CallStartSpan "connect_db" None None;
              CallAddCommonAttribute "user_id" "42";
              CallMethod {| wrapped := 1 |} (end_ None);
              CallStartSpan "cache_lookup" None None;
              CallMethod {| wrapped := 0 |} (end_ None);
              CallMethod {| wrapped := 2 |} (end_ None)] in
  let c := run (fst fresh_manager) ops (snd fresh_manager) in
  stack (fst c) (snd c) = [0]
  ∧ created (sdk_calls (snd c)) = [(0, None); (1, Some 0); (2, Some 0)]
  ∧ calls_on 0 (sdk_calls (snd c))
    = [TracerStartSpan "api_call" {| parent := None; attributes := None |}
         None 0;
       SpanSetAttributes 0 ∅;
       SpanSetAttribute 0 "user_id" (AString "42");
       error_not_top 0;
       SpanEnd 0 None]
  ∧ calls_on 2 (sdk_calls (snd c))
    = [TracerStartSpan "cache_lookup"
         {| parent := Some 0; attributes := None |} None 2;
       SpanSetAttributes 2 {["user_id" := AString "42"]};
       SpanEnd 2 None].
Proof. vm_compute. repeat split. Qed.

(** ** What reaches the SDK *)

Lemma ended_app log log' : ended (log ++ log') = ended log ++ ended log'.
Proof. apply omap_app. Qed.

Lemma requested_app log log' :
  requested (log ++ log') = requested log ++ requested log'.
Proof. apply omap_app. Qed.

Lemma ended_broadcast key value (l : list Span) :
  ended ((λ span, SpanSetAttribute span key value) <$> l) = [].
Proof. unfold ended. by induction l. Qed.

Lemma requested_broadcast key value (l : list Span) :
  requested ((λ span, SpanSetAttribute span key value) <$> l) = [].
Proof. unfold requested. by induction l. Qed.

(** The calls [endSpan] adds to the log: at most one tag, then the [end]. *)
Lemma endSpan_calls this span endTime w :
  ∃ tags,
    sdk_calls (snd (endSpan this span endTime w))
    = sdk_calls w ++ tags ++ [SpanEnd span endTime]
    ∧ (tags = [] ∨ tags = [error_empty_stack span]
       ∨ tags = [error_not_top span]).
Proof.
  destruct (endSpan_cases this span endTime w)
    as [[_ ->]|[(_ & _ & ->)|(l & _ & _ & _ & _ & ->)]].
  - exists [error_empty_stack span]. split; [done|]. right. by left.
  - exists [error_not_top span]. split; [done|]. right. by right.
  - exists []. split; [done|]. by left.
Qed.

Lemma step_ended this op w :
  ended (sdk_calls (snd (step this op w)))
  = ended (sdk_calls w) ++ end_calls [op].
Proof.
  destruct op as [name attrs ctx|key value| |spanRef m];
    unfold step, mbind, mret, M_bind, M_ret.
  - rewrite startSpan_eq. cbn [fst snd sdk_calls]. by rewrite ended_app.
  - rewrite addCommonAttribute_eq. cbn [fst snd logged sdk_calls].
    by rewrite ended_app, ended_broadcast.
  - rewrite getSpanStack_eq. cbn. by rewrite app_nil_r.
  - rewrite invoke_eq.
    destruct m; cbn [fst snd logged sdk_calls]; try by rewrite ended_app.
    destruct (endSpan_calls this (wrapped spanRef) endTime w)
      as (tags & -> & Htags).
    rewrite !ended_app. by destruct Htags as [->|[->| ->]].
Qed.

Lemma step_requested this op w :
  requested (sdk_calls (snd (step this op w)))
  = requested (sdk_calls w) ++ start_calls [op].
Proof.
  destruct op as [name attrs ctx|key value| |spanRef m];
    unfold step, mbind, mret, M_bind, M_ret.
  - rewrite startSpan_eq. cbn [fst snd sdk_calls]. by rewrite requested_app.
  - rewrite addCommonAttribute_eq. cbn [fst snd logged sdk_calls].
    by rewrite requested_app, requested_broadcast.
  - rewrite getSpanStack_eq. cbn. by rewrite app_nil_r.
  - rewrite invoke_eq.
    destruct m; cbn [fst snd logged sdk_calls]; try by rewrite requested_app.
    destruct (endSpan_calls this (wrapped spanRef) endTime w)
      as (tags & -> & Htags).
    rewrite !requested_app. by destruct Htags as [->|[->| ->]].
Qed.

(** X1 (every [end] reaches the SDK, and only those).  Over any run of
    operations, the SDK [end] calls are exactly the [end] calls made on
    wrappers: the same spans with the same end times, in the same order,
    each once, whether the stack accepted the call or not.  The manager
    never ends a span of its own accord and never drops an [end]: a span
    ended twice by the caller is ended twice at the SDK. *)
Theorem run_ended ops : ∀ this w,
  ended (sdk_calls (snd (run this ops w)))
  = ended (sdk_calls w) ++ end_calls ops.
Proof.
  induction ops as [|op ops IH]; intros this w.
  - cbn. by rewrite app_nil_r.
  - rewrite run_cons, IH, step_ended, <- app_assoc.
    f_equal. unfold end_calls. by rewrite <- omap_app.
Qed.

(** X2 (every [startSpan] reaches the tracer unchanged, and only those).
    Over any run of operations, the tracer is asked to create exactly one
    span per [startSpan] call, in call order, with the name, the initial
    attributes and the context of that call; no other operation creates a
    span. *)
Theorem run_requested ops : ∀ this w,
  requested (sdk_calls (snd (run this ops w)))
  = requested (sdk_calls w) ++ start_calls ops.
Proof.
  induction ops as [|op ops IH]; intros this w.
  - cbn. by rewrite app_nil_r.
  - rewrite run_cons, IH, step_requested, <- app_assoc.
    f_equal. unfold start_calls. by rewrite <- omap_app.
Qed.

(** ** The common attributes over a run *)

Lemma step_registered this op w :
  commonAttributes (fst (step this op w))
  = registered (commonAttributes this) [op].
Proof.
  destruct op as [name attrs ctx|key value| |spanRef m];
    unfold step, mbind, mret, M_bind, M_ret.
  - by rewrite startSpan_eq.
  - by rewrite addCommonAttribute_eq.
  - done.
  - rewrite invoke_eq. destruct m; try done. cbn [fst snd registered foldl].
    destruct (endSpan_cases this (wrapped spanRef) endTime w)
      as [[_ ->]|[(_ & _ & ->)|(l & _ & _ & _ & -> & _)]]; done.
Qed.

Lemma registered_dom ops : ∀ common : gmap string string,
  dom common ⊆ dom (registered common ops).
Proof.
  induction ops as [|op ops IH]; intros common; [done|].
  cbn [registered foldl]. etrans; [|apply IH].
  destruct op; try done. apply assign_dom.
Qed.

Lemma registered_proto ops : ∀ common : gmap string string,
  common !! "__proto__" = None → registered common ops !! "__proto__" = None.
Proof.
  induction ops as [|op ops IH]; intros common Hp; [done|].
  cbn [registered foldl]. apply IH. destruct op; try done.
  by apply assign_proto.
Qed.

Lemma run_registered_eq ops : ∀ this w,
  commonAttributes (fst (run this ops w))
  = registered (commonAttributes this) ops.
Proof.
  induction ops as [|op ops IH]; intros this w; [done|].
  by rewrite run_cons, IH, step_registered.
Qed.

(** X3 (the common attributes only grow, and only [addCommonAttribute]
    changes them).  After any run of operations the common attributes are
    the ones the manager had, with the assignments [commonAttributes[key] =
    value] of the run's [addCommonAttribute] calls applied in order;
    starting and ending spans, [getSpanStack] and the wrappers' methods
    leave them alone.  No key is ever removed.  The key ["__proto__"] is
    never stored by a manager run from its construction, whatever is
    registered. *)
Theorem run_registered ops : ∀ this w,
  commonAttributes (fst (run this ops w))
  = registered (commonAttributes this) ops
  ∧ dom (commonAttributes this) ⊆ dom (commonAttributes (fst (run this ops w)))
  ∧ commonAttributes (fst (run (fst (Trace_new w)) ops (snd (Trace_new w))))
    !! "__proto__" = None.
Proof.
  intros this w. rewrite !run_registered_eq. split; [done|].
  split; [apply registered_dom|]. by apply registered_proto.
Qed.

(** ** Several managers on one tracer *)

(** X4 (a new manager has an array of its own).  [new Trace(tracer)] makes
    no SDK call and gives a manager with an empty stack and no common
    attributes, whose array is a new one: it is different from the array of
    any manager that exists, and the stack of that manager is unchanged. *)
Theorem Trace_new_separate this w :
  allocated this w →
  let new := Trace_new w in
  stack (fst new) (snd new) = []
  ∧ commonAttributes (fst new) = ∅
  ∧ sdk_calls (snd new) = sdk_calls w
  ∧ sdk_next (snd new) = sdk_next w
  ∧ allocated (fst new) (snd new)
  ∧ allocated this (snd new)
  ∧ spanStack (fst new) ≠ spanStack this
  ∧ stack this (snd new) = stack this w.
Proof.
  unfold allocated. intros Ha. cbn zeta.
  pose proof (is_fresh (dom (arrays w))) as Hfresh.
  assert (fresh (dom (arrays w)) ≠ spanStack this) as Hne
    by (intros Heq; by rewrite Heq in Hfresh).
  split; [apply Trace_new_stack|]. split; [done|]. split; [done|].
  split; [done|]. split; [apply allocated_new|].
  unfold stack, contents, Trace_new, array_new, mbind, mret, M_bind, M_ret.
  cbn [fst snd arrays spanStack]. rewrite dom_insert_L.
  split; [set_solver|]. split; [done|]. by rewrite lookup_insert_ne.
Qed.

(** X5 (managers do not interfere).  For two managers with different
    arrays, any run of operations on one leaves the stack of the other as
    it is; both arrays stay allocated and different, so the same holds for
    whatever is done next on either of them. *)
Theorem managers_isolated this other w ops :
  allocated this w →
  allocated other w →
  spanStack this ≠ spanStack other →
  let c := run this ops w in
  stack other (snd c) = stack other w
  ∧ allocated (fst c) (snd c)
  ∧ allocated other (snd c)
  ∧ spanStack (fst c) ≠ spanStack other.
Proof.
  intros Ha Hb Hne. cbn zeta.
  destruct (run_frame ops this w (spanStack other) Hb (not_eq_sym Hne))
    as [Hne' Heq].
  split; [unfold stack, contents; by rewrite Heq|].
  split; [by apply run_allocated|].
  split; [|by apply not_eq_sym].
  unfold allocated in *. apply elem_of_dom. rewrite Heq.
  by apply elem_of_dom.
Qed.

(** ** The stack is a chain of parents *)

Lemma chain_snoc_from (x : Span) (l : list Span) : ∀ p : option Span,
  zip (l ++ [x]) (p :: (Some <$> (l ++ [x])))
  = zip l (p :: (Some <$> l))
    ++ [(x, match last l with Some y => Some y | None => p end)].
Proof.
  induction l as [|a l IH]; intros p; [done|].
  cbn [app fmap list_fmap zip zip_with]. rewrite (IH (Some a)).
  rewrite last_cons. by destruct (last l).
Qed.

Lemma chain_snoc (l : list Span) (x : Span) :
  chain (l ++ [x]) = chain l ++ [(x, last l)].
Proof. unfold chain. rewrite chain_snoc_from. by destruct (last l). Qed.

Lemma step_end_created this spanRef endTime w :
  created (sdk_calls (snd (step this (CallMethod spanRef (end_ endTime)) w)))
  = created (sdk_calls w).
Proof.
  unfold step, mbind, mret, M_bind, M_ret. rewrite invoke_eq. cbn [fst snd].
  destruct (endSpan_calls this (wrapped spanRef) endTime w)
    as (tags & -> & Htags).
  rewrite !created_app.
  destruct Htags as [->|[->| ->]]; cbn; by rewrite app_nil_r.
Qed.

(** Each entry of the stack was created, among the spans created after the
    first [base] ones, with the entry below it as parent. *)
Lemma step_chain base this op w :
  base ≤ length (created (sdk_calls w)) →
  Forall (λ p, p ∈ drop base (created (sdk_calls w))) (chain (stack this w)) →
  let r := step this op w in
  base ≤ length (created (sdk_calls (snd r)))
  ∧ Forall (λ p, p ∈ drop base (created (sdk_calls (snd r))))
      (chain (stack (fst r) (snd r))).
Proof.
  intros Hb Hch. cbn zeta. destruct (is_end op) eqn:Hend.
  - destruct op as [| | |spanRef m]; try discriminate Hend.
    destruct m; try discriminate Hend.
    rewrite step_end_created. split; [done|].
    destruct (step_shape this (CallMethod spanRef (end_ endTime)) w)
      as [[_ ->]|[[Hn _]|[_ [span E]]]]; [done| |].
    + exfalso. revert Hn. unfold step, mbind, mret, M_bind, M_ret.
      rewrite invoke_eq. cbn [fst snd].
      destruct (endSpan_cases this (wrapped spanRef) endTime w)
        as [[_ ->]|[(_ & _ & ->)|(l & _ & _ & -> & _)]]; cbn; lia.
    + rewrite E, chain_snoc in Hch. by apply Forall_app in Hch as [? _].
  - pose proof (step_no_end this op w Hend) as Hstep. cbn zeta in Hstep.
    destruct (is_start op).
    + destruct Hstep as (-> & _ & ->). rewrite length_app. split; [lia|].
      rewrite chain_snoc, drop_app_le by done.
      apply Forall_app. split.
      * eapply Forall_impl; [exact Hch|]. intros p Hp. cbn beta.
        apply elem_of_app. by left.
      * apply Forall_singleton, elem_of_app. right.
        by apply list_elem_of_singleton.
    + by destruct Hstep as (-> & _ & ->).
Qed.

Lemma run_chain base ops : ∀ this w,
  base ≤ length (created (sdk_calls w)) →
  Forall (λ p, p ∈ drop base (created (sdk_calls w))) (chain (stack this w)) →
  let c := run this ops w in
  Forall (λ p, p ∈ drop base (created (sdk_calls (snd c))))
    (chain (stack (fst c) (snd c))).
Proof.
  induction ops as [|op ops IH]; intros this w Hb Hch; cbn zeta; [done|].
  rewrite run_cons. destruct (step_chain base this op w Hb Hch). by apply IH.
Qed.

(** X6 (the stack is a chain of parents).  In every state a manager
    reaches from its construction, whatever the operations and however
    they are misused, the stack holds distinct spans created through this
    manager, the bottom one was created without a parent and every other
    one was created with the entry just below it as parent. *)
Theorem stack_parent_chain w ops :
  let new := Trace_new w in
  let c := run (fst new) ops (snd new) in
  let mine := drop (length (created (sdk_calls w)))
                (created (sdk_calls (snd c))) in
  NoDup (stack (fst c) (snd c))
  ∧ Forall (λ p, p ∈ mine) (chain (stack (fst c) (snd c))).
Proof.
  cbn zeta. split.
  - apply run_tracked, tracked_new.
  - apply run_chain; [done|]. rewrite Trace_new_stack. constructor.
Qed.

(** ** Ending spans in reverse order of start *)

Lemma status_writes_app log log' :
  status_writes (log ++ log') = status_writes log ++ status_writes log'.
Proof. apply filter_app. Qed.

Lemma status_writes_broadcast key value (l : list Span) :
  key ≠ "span_status" →
  status_writes ((λ span, SpanSetAttribute span key value) <$> l) = [].
Proof.
  intros Hk. unfold status_writes. induction l as [|x l IH]; [done|].
  rewrite fmap_cons, filter_cons_False; [done|].
  cbn [is_status_write]. by intros H%bool_decide_unpack.
Qed.

Lemma step_status_writes this op w :
  is_end op = false → writes_status op = false →
  status_writes (sdk_calls (snd (step this op w)))
  = status_writes (sdk_calls w).
Proof.
  intros Hend Hst.
  destruct op as [name attrs ctx|key value| |spanRef m];
    unfold step, mbind, mret, M_bind, M_ret.
  - rewrite startSpan_eq. cbn [fst snd sdk_calls].
    rewrite status_writes_app. cbn. by rewrite app_nil_r.
  - rewrite addCommonAttribute_eq. cbn [fst snd logged sdk_calls].
    cbn in Hst. apply bool_decide_eq_false in Hst.
    by rewrite status_writes_app, status_writes_broadcast, app_nil_r.
  - by rewrite getSpanStack_eq.
  - rewrite invoke_eq.
    destruct m; try discriminate Hend; cbn [fst snd logged sdk_calls];
      rewrite status_writes_app; unfold status_writes;
      try (by rewrite app_nil_r).
    cbn [writes_status] in Hst. apply bool_decide_eq_false in Hst.
    rewrite filter_cons_False; [by rewrite app_nil_r|].
    cbn [is_status_write]. by intros H%bool_decide_unpack.
Qed.


(** ** A span ended out of order *)

(** X8 (a span ended out of order can be ended again).  With [A] just
    below the top [B] of the stack, [end] on [A] is rejected and [A] stays
    on the stack; once [B] is ended, a second [end] on [A] is accepted and
    pops it.  The SDK [end] has then been called twice on [A], which keeps
    its [error_not_top] tag. *)
Theorem endSpan_again_accepted
    this A B below (endA endB endA' : option TimeInput) w :
  stack this w = below ++ [A; B] →
  A ≠ B →
  let r1 := endSpan this A endA w in
  let r2 := endSpan (fst r1) B endB (snd r1) in
  let r3 := endSpan (fst r2) A endA' (snd r2) in
  stack (fst r1) (snd r1) = below ++ [A; B]
  ∧ stack (fst r2) (snd r2) = below ++ [A]
  ∧ stack (fst r3) (snd r3) = below
  ∧ sdk_calls (snd r3)
    = sdk_calls w
      ++ [error_not_top A; SpanEnd A endA; SpanEnd B endB; SpanEnd A endA'].
Proof.
  intros E Hne. cbn zeta.
  change (below ++ [A; B]) with (below ++ [A] ++ [B]) in *.
  rewrite app_assoc in *.
  assert (endSpan this A endA w
          = (this, logged w [error_not_top A; SpanEnd A endA])) as ->.
  { apply endSpan_not_top; rewrite E; [by destruct below|].
    rewrite last_snoc. congruence. }
  cbn [fst snd]. rewrite stack_logged.
  assert (stack this (logged w [error_not_top A; SpanEnd A endA])
          = (below ++ [A]) ++ [B]) as E1 by done.
  pose proof (endSpan_top_stack _ _ endB _ _ E1) as E2.
  rewrite (endSpan_top _ _ endB _ _ E1) in *. cbn [fst snd] in *.
  pose proof (endSpan_top_stack _ _ endA' _ _ E2) as E3.
  rewrite (endSpan_top _ _ endA' _ _ E2) in *. cbn [fst snd] in *.
  repeat split; try done. cbn [sdk_calls logged].
  by rewrite <- !app_assoc.
Qed.

(** X9 (a span can get an ended span as parent).  [startSpan] takes the
    top of the stack as parent without regard to whether that span has been
    ended: after an [end] on [A] was rejected and the span above it was
    ended, [A] is the top, and the next span is created as a child of [A],
    on which the SDK [end] has already been called. *)
Theorem startSpan_under_ended_span
    this A B below (endA endB : option TimeInput) name attrs ctx w :
  stack this w = below ++ [A; B] →
  A ≠ B →
  let r1 := endSpan this A endA w in
  let r2 := endSpan (fst r1) B endB (snd r1) in
  let s := startSpan (fst r2) name attrs ctx (snd r2) in
  let new := wrapped (fst (fst s)) in
  sdk_calls (snd s)
  = sdk_calls w
    ++ [error_not_top A; SpanEnd A endA; SpanEnd B endB;
        TracerStartSpan name {| parent := Some A; attributes := attrs |}
          ctx new;
        SpanSetAttributes new (AString <$> commonAttributes this)]
  ∧ stack (snd (fst s)) (snd s) = below ++ [A; new].
Proof.
  intros E Hne. cbn zeta.
  change (below ++ [A; B]) with (below ++ [A] ++ [B]) in *.
  rewrite app_assoc in *.
  assert (endSpan this A endA w
          = (this, logged w [error_not_top A; SpanEnd A endA])) as ->.
  { apply endSpan_not_top; rewrite E; [by destruct below|].
    rewrite last_snoc. congruence. }
  cbn [fst snd].
  assert (stack this (logged w [error_not_top A; SpanEnd A endA])
          = (below ++ [A]) ++ [B]) as E1 by done.
  pose proof (endSpan_top_stack _ _ endB _ _ E1) as E2.
  rewrite (endSpan_top _ _ endB _ _ E1) in *. cbn [fst snd] in *.
  match goal with |- context [startSpan ?t name attrs ctx ?w1] =>
    pose proof (startSpan_stack t name attrs ctx w1) as E3 end.
  rewrite startSpan_eq in *. cbn [fst snd wrapped sdk_calls sdk_next logged] in *.
  rewrite E3, E2, last_snoc, <- !app_assoc. by split.
Qed.

(** ** The usage example *)

Lemma startSpan_obs this name attrs ctx w :
  let r := startSpan this name attrs ctx w in
  fst r = ({| wrapped := sdk_next w |}, this)
  ∧ stack this (snd r) = stack this w ++ [sdk_next w]
  ∧ sdk_next (snd r) = S (sdk_next w)
  ∧ sdk_calls (snd r)
    = sdk_calls w
      ++ [TracerStartSpan name
            {| parent := last (stack this w); attributes := attrs |}
            ctx (sdk_next w);
          SpanSetAttributes (sdk_next w) (AString <$> commonAttributes this)].
Proof.
  cbn zeta. pose proof (startSpan_stack this name attrs ctx w) as Hst.
  rewrite startSpan_eq in *. by repeat split.
Qed.

Lemma endSpan_top_obs this span endTime w l :
  stack this w = l ++ [span] →
  let r := endSpan this span endTime w in
  stack (fst r) (snd r) = l
  ∧ commonAttributes (fst r) = commonAttributes this
  ∧ sdk_next (snd r) = sdk_next w
  ∧ sdk_calls (snd r) = sdk_calls w ++ [SpanEnd span endTime].
Proof.
  intros E. cbn zeta. split; [by apply endSpan_top_stack|].
  by rewrite (endSpan_top _ _ _ _ _ E).
Qed.

(** X10 (the README example).  Whatever the SDK has seen before and
    whatever the user id, [apiCall] creates two spans, [api_call] without a
    parent and [connect_db] as its child; the user id, registered while
    both are open, is written to both; [connect_db] is ended first, then
    [api_call], each once and with no [span_status] tag. *)
Theorem apiCall_spans userId w :
  let api := sdk_next w in
  let db := S (sdk_next w) in
  let log := sdk_calls (exec (apiCall userId) w) in
  log
  = sdk_calls w
    ++ [TracerStartSpan "api_call" {| parent := None; attributes := None |}
          None api;
        SpanSetAttributes api ∅;
        TracerStartSpan "connect_db"
          {| parent := Some api; attributes := None |} None db;
        SpanSetAttributes db ∅;
        SpanSetAttribute api "user_id" (AString userId);
        SpanSetAttribute db "user_id" (AString userId);
        SpanEnd db None;
        SpanEnd api None]
  ∧ carried log api !! "user_id" = Some (AString userId)
  ∧ carried log db !! "user_id" = Some (AString userId)
  ∧ carried log api !! "span_status" = None
  ∧ carried log db !! "span_status" = None.
Proof.
  cbn zeta.
  assert (sdk_calls (exec (apiCall userId) w)
          = sdk_calls w
            ++ [TracerStartSpan "api_call"
                  {| parent := None; attributes := None |} None (sdk_next w);
                SpanSetAttributes (sdk_next w) ∅;
                TracerStartSpan "connect_db"
                  {| parent := Some (sdk_next w); attributes := None |} None
                  (S (sdk_next w));
                SpanSetAttributes (S (sdk_next w)) ∅;
                SpanSetAttribute (sdk_next w) "user_id" (AString userId);
                SpanSetAttribute (S (sdk_next w)) "user_id" (AString userId);
                SpanEnd (S (sdk_next w)) None;
                SpanEnd (sdk_next w) None]) as ->.
  { unfold exec, apiCall, mbind, mret, M_bind, M_ret, SpanWrapper_end.
    pose proof (Trace_new_stack w) as E0.
    assert (sdk_calls (snd (Trace_new w)) = sdk_calls w
            ∧ sdk_next (snd (Trace_new w)) = sdk_next w
            ∧ commonAttributes (fst (Trace_new w)) = ∅) as (C0 & N0 & A0)
      by done.
    destruct (Trace_new w) as [t0 w0]. cbn [fst snd] in *.
    destruct (startSpan_obs t0 "api_call" None None w0) as (R1 & E1 & N1 & C1).
    destruct (startSpan t0 "api_call" None None w0) as [[a t1] w1].
    cbn [fst snd] in *. injection R1 as -> ->.
    destruct (startSpan_obs t0 "connect_db" None None w1)
      as (R2 & E2 & N2 & C2).
    destruct (startSpan t0 "connect_db" None None w1) as [[b t2] w2].
    cbn [fst snd] in *. injection R2 as -> ->.
    rewrite addCommonAttribute_eq. cbn [fst snd wrapped].
    rewrite E0 in *. rewrite E1 in *. cbn [app] in *.
    rewrite N1, N0 in *.
    set (t3 := {| spanStack := spanStack t0;
                  commonAttributes := assign (commonAttributes t0) "user_id"
                                        userId |}).
    set (w3 := logged w2 _).
    assert (stack t3 w3 = [sdk_next w] ++ [S (sdk_next w)]) as E3
      by (subst t3 w3; exact E2).
    destruct (endSpan_top_obs t3 (S (sdk_next w)) None w3 [sdk_next w] E3)
      as (E4 & _ & _ & C4).
    destruct (endSpan t3 (S (sdk_next w)) None w3) as [t4 w4].
    cbn [fst snd] in *.
    destruct (endSpan_top_obs t4 (sdk_next w) None w4 [] E4)
      as (_ & _ & _ & C5).
    destruct (endSpan t4 (sdk_next w) None w4) as [t5 w5].
    cbn [fst snd] in *.
    rewrite C5, C4. subst w3. cbn [logged sdk_calls].
    rewrite E2, C2, C1, C0, A0, fmap_empty. cbn. by rewrite <- !app_assoc. }
  rewrite !carried_app. cbn [foldl write attributes default].
  repeat (case_decide; try lia).
  split; [done|]. rewrite !lookup_insert_eq.
  rewrite !lookup_insert_ne by done. by rewrite lookup_union, lookup_empty.
Qed.

(** ** Which spans an operation touches *)

Lemma calls_on_one span (c : SdkCall) :
  target c ≠ span → calls_on span [c] = [].
Proof. intros H. unfold calls_on. by rewrite filter_cons_False. Qed.

(** X11 (an operation touches only its own spans).  An operation makes
    SDK calls on no span but these: [startSpan] on the span it creates,
    [addCommonAttribute] on the spans of the stack, a wrapper's method on
    the span it wraps; [getSpanStack] on none.  In particular [end] on one
    span, accepted or rejected, neither ends nor tags any other span: the
    spans above a span ended out of order are left open. *)
Theorem step_touches this op w span :
  span ∉ touched this w op →
  calls_on span (sdk_calls (snd (step this op w)))
  = calls_on span (sdk_calls w).
Proof.
  intros Hni.
  destruct op as [name attrs ctx|key value| |spanRef m];
    unfold step, mbind, mret, M_bind, M_ret; cbn [touched] in Hni.
  - apply not_elem_of_cons in Hni as [Hne _].
    rewrite startSpan_eq. cbn [fst snd sdk_calls].
    rewrite calls_on_app. unfold calls_on.
    rewrite !filter_cons_False by (cbn; congruence). by rewrite app_nil_r.
  - rewrite addCommonAttribute_eq. cbn [fst snd logged sdk_calls].
    by rewrite calls_on_app, calls_on_broadcast, app_nil_r.
  - by rewrite getSpanStack_eq.
  - apply not_elem_of_cons in Hni as [Hne _]. rewrite invoke_eq.
    destruct m; cbn [fst snd logged sdk_calls];
      try (rewrite calls_on_app, calls_on_one by (cbn; congruence);
           by rewrite app_nil_r).
    destruct (endSpan_calls this (wrapped spanRef) endTime w)
      as (tags & -> & Htags).
    rewrite !calls_on_app, (calls_on_one _ (SpanEnd _ _)) by (cbn; congruence).
    destruct Htags as [->|[->| ->]]; [by rewrite !app_nil_r|..];
      rewrite calls_on_one by (cbn; congruence); by rewrite !app_nil_r.
Qed.

(** ** What a new span receives *)

(** X12 (a new span receives exactly the common attributes stored so
    far).  After any run of operations on a manager, the [setAttributes]
    call that [startSpan] makes on the span it creates carries the common
    attributes the manager had before the run with the assignments of the
    run's [addCommonAttribute] calls applied in order, the latest value for
    each key; on a manager run from its construction, those of the run and
    nothing else, and never the key ["__proto__"], which is not stored. *)
Theorem startSpan_receives_registered ops name attrs ctx :
  (∀ this w,
     let c := run this ops w in
     let s := startSpan (fst c) name attrs ctx (snd c) in
     sdk_calls (snd s)
     = sdk_calls (snd c)
       ++ [TracerStartSpan name
             {| parent := last (stack (fst c) (snd c)); attributes := attrs |}
             ctx (wrapped (fst (fst s)));
           SpanSetAttributes (wrapped (fst (fst s)))
             (AString <$> registered (commonAttributes this) ops)])
  ∧ (∀ w,
       let new := Trace_new w in
       let c := run (fst new) ops (snd new) in
       let s := startSpan (fst c) name attrs ctx (snd c) in
       last (sdk_calls (snd s))
       = Some (SpanSetAttributes (wrapped (fst (fst s)))
                 (AString <$> registered ∅ ops))
       ∧ (AString <$> registered ∅ ops) !! "__proto__" = None).
Proof.
  assert (∀ this w,
     let c := run this ops w in
     let s := startSpan (fst c) name attrs ctx (snd c) in
     sdk_calls (snd s)
     = sdk_calls (snd c)
       ++ [TracerStartSpan name
             {| parent := last (stack (fst c) (snd c)); attributes := attrs |}
             ctx (wrapped (fst (fst s)));
           SpanSetAttributes (wrapped (fst (fst s)))
             (AString <$> registered (commonAttributes this) ops)]) as Hgen.
  { intros this w. cbn zeta. rewrite startSpan_eq.
    cbn [fst snd wrapped sdk_calls].
    by rewrite run_registered_eq. }
  split; [exact Hgen|].
  intros w. cbn zeta. specialize (Hgen (fst (Trace_new w)) (snd (Trace_new w))).
  cbn zeta in Hgen. rewrite Hgen. split; [by rewrite last_snoc2|].
  by rewrite lookup_fmap, registered_proto.
Qed.

(** ** The further properties at concrete states *)

Lemma Trace_new_separate_witness :
  allocated (fst two_open) (snd two_open)
  ∧ let new := Trace_new (snd two_open) in
    spanStack (fst new) ≠ spanStack (fst two_open)
    ∧ stack (fst two_open) (snd new) = stack (fst two_open) (snd two_open).
Proof.
  assert (allocated (fst two_open) (snd two_open)) as H1
    by (vm_compute; reflexivity).
  split; [exact H1|].
  destruct (Trace_new_separate (fst two_open) (snd two_open) H1)
    as (_ & _ & _ & _ & _ & _ & Ha & Hb).
  split; [exact Ha|exact Hb].
Defined.

Lemma managers_isolated_witness :
  let new := Trace_new (snd two_open) in
  let ops := [CallStartSpan "cache_lookup" None None;
              CallMethod {| wrapped := 0 |} (end_ None)] in
  allocated (fst two_open) (snd new)
  ∧ allocated (fst new) (snd new)
  ∧ spanStack (fst two_open) ≠ spanStack (fst new)
  ∧ stack (fst new) (snd (run (fst two_open) ops (snd new)))
    = stack (fst new) (snd new).
Proof.
  cbn zeta.
  assert (allocated (fst two_open) (snd (Trace_new (snd two_open)))) as H1
    by (vm_compute; reflexivity).
  assert (allocated (fst (Trace_new (snd two_open)))
            (snd (Trace_new (snd two_open)))) as H2
    by (vm_compute; reflexivity).
  assert (spanStack (fst two_open)
          ≠ spanStack (fst (Trace_new (snd two_open)))) as H3
    by (vm_compute; lia).
  split; [exact H1|]. split; [exact H2|]. split; [exact H3|].
  exact (proj1 (managers_isolated (fst two_open)
                  (fst (Trace_new (snd two_open)))
                  (snd (Trace_new (snd two_open))) _ H1 H2 H3)).
Defined.


Lemma endSpan_again_accepted_witness :
  stack (fst two_open) (snd two_open) = [] ++ [0; 1]
  ∧ 0 ≠ 1
  ∧ let r1 := endSpan (fst two_open) 0 None (snd two_open) in
    let r2 := endSpan (fst r1) 1 None (snd r1) in
    let r3 := endSpan (fst r2) 0 None (snd r2) in
    stack (fst r1) (snd r1) = [] ++ [0; 1]
    ∧ stack (fst r2) (snd r2) = [] ++ [0]
    ∧ stack (fst r3) (snd r3) = [].
Proof.
  assert (stack (fst two_open) (snd two_open) = [] ++ [0; 1]) as H1
    by (vm_compute; reflexivity).
  assert (0 ≠ 1) as H2 by lia.
  split; [exact H1|]. split; [exact H2|].
  destruct (endSpan_again_accepted (fst two_open) 0 1 [] None None None
              (snd two_open) H1 H2) as (Ha & Hb & Hc & _).
  split; [exact Ha|]. split; [exact Hb|exact Hc].
Defined.

Lemma startSpan_under_ended_span_witness :
  stack (fst two_open) (snd two_open) = [] ++ [0; 1]
  ∧ 0 ≠ 1
  ∧ let r1 := endSpan (fst two_open) 0 None (snd two_open) in
    let r2 := endSpan (fst r1) 1 None (snd r1) in
    let s := startSpan (fst r2) "cache_lookup" None None (snd r2) in
    stack (snd (fst s)) (snd s) = [] ++ [0; wrapped (fst (fst s))].
Proof.
  assert (stack (fst two_open) (snd two_open) = [] ++ [0; 1]) as H1
    by (vm_compute; reflexivity).
  assert (0 ≠ 1) as H2 by lia.
  split; [exact H1|]. split; [exact H2|].
  exact (proj2 (startSpan_under_ended_span (fst two_open) 0 1 [] None None
                  "cache_lookup" None None (snd two_open) H1 H2)).
Defined.

Lemma step_touches_witness :
  let op := CallMethod {| wrapped := 0 |} (end_ None) in
  (1 ∉ touched (fst two_open) (snd two_open) op)
  ∧ calls_on 1 (sdk_calls (snd (step (fst two_open) op (snd two_open))))
    = calls_on 1 (sdk_calls (snd two_open)).
Proof.
  cbn zeta.
  assert (1 ∉ touched (fst two_open) (snd two_open)
                (CallMethod {| wrapped := 0 |} (end_ None))) as H1.
  { cbn [touched wrapped]. apply not_elem_of_cons.
    split; [lia|apply not_elem_of_nil]. }
  split; [exact H1|].
  exact (step_touches (fst two_open) _ (snd two_open) 1 H1).
Defined.

(** The key ["__proto__"] is written to the open spans and not stored: the
    manager has no common attribute afterwards, and the next span started
    receives none. *)
Example addCommonAttribute_proto_not_stored :
  let r := addCommonAttribute (fst two_open) "__proto__" "x" (snd two_open) in
  let s := startSpan (fst r) "cache_lookup" None None (snd r) in
  sdk_calls (snd r)
  = sdk_calls (snd two_open)
    ++ [SpanSetAttribute 0 "__proto__" (AString "x");
        SpanSetAttribute 1 "__proto__" (AString "x")]
  ∧ commonAttributes (fst r) = ∅
  ∧ last (sdk_calls (snd s)) = Some (SpanSetAttributes 2 ∅).
Proof. vm_compute. repeat split. Qed.
